(** * Bangalore Pulse scraper: classification and idempotent ingestion

    A shallow embedding of [master_scraper.py] (and of the parts of
    [master_scraper_v1_working.py] that differ from it), with the
    properties of the content classifier, the event normaliser and the
    deduplicating store.

    Modelling conventions.
    - A Python [str] is the [string] of the bytes of its UTF-8 encoding.
      [str.lower] is modelled on the letters A to Z and on the two code
      points above 127 whose lower-case form holds an ASCII letter, the
      KELVIN SIGN and the capital I with a dot; [str.title], which the
      program applies to the configured place names only, on the ASCII
      letters.
    - A Python [set] turned into a [list] has no specified order: such
      values are kept as [gset string].
    - A dictionary key that may be absent, and a value that may be [None],
      is an [option].
    - Instants are seconds since the epoch, in [Z]; which of them
      [datetime.fromtimestamp] accepts is a parameter of the normaliser.
    - The feed parser, the conversion of a parsed time, the clock and the
      forum listing are parameters of the normaliser; an error they raise
      is a [Raise].
    - The collection is the list of its documents, in insertion order; the
      storage errors of a run are a schedule carried by the collection.
    - Console output is not modelled. *)

From Stdlib Require Import ZArith Ascii String List Bool Lia.
From stdpp Require Import base option list strings gmap.

Local Open Scope string_scope.
Local Open Scope list_scope.

(** ** Python string operations *)

Module PyStr.

Definition is_upper (c : ascii) : bool :=
  let n := nat_of_ascii c in (65 <=? n)%nat && (n <=? 90)%nat.

Definition is_lower (c : ascii) : bool :=
  let n := nat_of_ascii c in (97 <=? n)%nat && (n <=? 122)%nat.

Definition is_cased (c : ascii) : bool := is_upper c || is_lower c.

Definition lower_char (c : ascii) : ascii :=
  if is_upper c then ascii_of_nat (nat_of_ascii c + 32) else c.

Definition upper_char (c : ascii) : ascii :=
  if is_lower c then ascii_of_nat (nat_of_ascii c - 32) else c.

(** [s.lower()], on the UTF-8 encoding of [s]. The letters A to Z become
    a to z; U+212A KELVIN SIGN (bytes 226 132 170) becomes k; U+0130, the
    capital I with a dot (bytes 196 176), becomes i followed by U+0307
    (bytes 204 135). These are all the code points whose lower-case form
    holds an ASCII character. Any other code point is left as it is, where
    Python may put another code point above 127 in its place: that changes
    no ASCII character of the result, hence no search for a phrase of
    ASCII characters, which is all the classifier uses the result for. *)
Fixpoint lower (s : string) : string :=
  match s with
  | EmptyString => EmptyString
  | String c r =>
      if bool_decide (c = "226"%char) then
        match r with
        | String c1 (String c2 r2) =>
            if bool_decide (c1 = "132"%char) && bool_decide (c2 = "170"%char)
            then String "k" (lower r2)
            else String c (lower r)
        | _ => String c (lower r)
        end
      else if bool_decide (c = "196"%char) then
        match r with
        | String c1 r1 =>
            if bool_decide (c1 = "176"%char)
            then String "i" (String "204" (String "135" (lower r1)))
            else String c (lower r)
        | EmptyString => String c (lower r)
        end
      else String (lower_char c) (lower r)
  end.

(** [s.title()]: a cased character is upper-cased when the character
    before it is not cased, and lower-cased otherwise. *)
Fixpoint title_from (previous_is_cased : bool) (s : string) : string :=
  match s with
  | EmptyString => EmptyString
  | String c r =>
      String (if previous_is_cased then lower_char c else upper_char c)
             (title_from (is_cased c) r)
  end.

Definition title (s : string) : string := title_from false s.

(** [s.startswith(p)] *)
Fixpoint startswith (p s : string) : bool :=
  match p, s with
  | EmptyString, _ => true
  | String _ _, EmptyString => false
  | String a p', String b s' => bool_decide (a = b) && startswith p' s'
  end.

(** [k in s] *)
Fixpoint contains (k s : string) : bool :=
  startswith k s ||
  match s with
  | EmptyString => false
  | String _ r => contains k r
  end.

(** Truth value of a string that may be [None]. *)
Definition truthy (o : option string) : bool :=
  match o with
  | Some (String _ _) => true
  | _ => false
  end.

End PyStr.

(** ** Configuration tables of [master_scraper.py] *)

Definition KEYWORD_CATEGORIES : list (string * list string) :=
  [ ("traffic",
      ["traffic"; "jam"; "congestion"; "road"; "flyover"; "accident";
       "diversion"; "slow moving"; "blockade"]);
    ("civic_issue",
      ["water logging"; "water-logged"; "pothole"; "garbage"; "waste";
       "fallen tree"; "tree fall"; "sewage"; "drainage"; "water supply"]);
    ("power_cut",
      ["power cut"; "outage"; "no electricity"; "bescom"; "power failure"]);
    ("cultural_event",
      ["exhibition"; "concert"; "festival"; "market"; "sante"; "play";
       "performance"; "flash mob"; "carnival"; "mela"]);
    ("crime",
      ["theft"; "robbery"; "murder"; "assault"; "arrested"; "police"]) ].

Definition BANGALORE_LOCATIONS : list string :=
  [ "koramangala"; "hsr layout"; "indiranagar"; "marathahalli"; "whitefield";
    "btm layout"; "jayanagar"; "jp nagar"; "bellandur"; "electronic city";
    "majestic"; "mg road"; "hebbal"; "sarjapur"; "old airport road";
    "silk board"; "tin factory"; "yelahanka"; "manyata tech park" ].

Definition RSS_FEEDS : list (string * string) :=
  [ ("TimesOfIndia",
      "https://timesofindia.indiatimes.com/rssfeeds/-2128833038.cms");
    ("TheHindu",
      "https://www.thehindu.com/news/cities/bangalore/feeder/default.xml");
    ("DeccanHerald", "https://www.deccanherald.com/rss/city/bengaluru.xml");
    ("BangaloreMirror",
      "https://bangaloremirror.indiatimes.com/rssfeeds/-2128830345.cms") ].

Definition SUBREDDIT_NAME : string := "bangalore".

(** ** Content classifier *)

(** The dictionary returned by [analyze_content]. *)
Record AnalysisResult := {
  categories : gset string;
  locations : gset string
}.

(** The two loops of [analyze_content], over explicit tables. *)
Fixpoint categories_found (table : list (string * list string))
    (content_lower : string) : gset string :=
  match table with
  | [] => ∅
  | (category, keywords) :: rest =>
      if existsb (fun keyword => PyStr.contains keyword content_lower) keywords
      then {[ category ]} ∪ categories_found rest content_lower
      else categories_found rest content_lower
  end.

Fixpoint locations_found (names : list string) (content_lower : string)
    : gset string :=
  match names with
  | [] => ∅
  | location :: rest =>
      if PyStr.contains location content_lower
      then {[ PyStr.title location ]} ∪ locations_found rest content_lower
      else locations_found rest content_lower
  end.

Definition analyze_content_with (table : list (string * list string))
    (names : list string) (content_text : option string) : AnalysisResult :=
  if negb (PyStr.truthy content_text) then
    {| categories := {[ "general" ]}; locations := ∅ |}
  else
    let content_lower := PyStr.lower (default "" content_text) in
    let cats := categories_found table content_lower in
    let locs := locations_found names content_lower in
    {| categories := if bool_decide (cats = ∅) then {[ "general" ]} else cats;
       locations := locs |}.

Definition analyze_content (content_text : option string) : AnalysisResult :=
  analyze_content_with KEYWORD_CATEGORIES BANGALORE_LOCATIONS content_text.

(** ** Source records and events *)

Inductive exc (A : Type) : Type :=
  | Ok (a : A)
  | Raise (msg : string).
Arguments Ok {A} a.
Arguments Raise {A} msg.

(** [time.struct_time], the nine fields of a broken-down time. *)
Definition struct_time : Type := list Z.

(** A feed entry as [feedparser] delivers it; [tags] holds the [term] of
    each tag, and is empty when the entry has no [tags] key. *)
Module Entry.
Record t := {
  id : option string;
  link : option string;
  title : option string;
  summary : option string;
  published_parsed : option struct_time;
  tags : list string
}.
End Entry.

(** A forum submission as [praw] delivers it. *)
Module Submission.
Record t := {
  id : string;
  title : string;
  selftext : string;
  permalink : string;
  created_utc : Z;
  url : string;
  is_self : bool;
  link_flair_text : option string
}.
End Submission.

Record Subreddit := {
  display_name : string;
  (** [new(limit=n)]: the posts the listing yields, in order; an element
      [Raise] is an error raised while the listing is iterated. *)
  new : nat -> list (exc Submission.t)
}.

Record RedditClient := { subreddit : string -> Subreddit }.

Inductive SourceType := RSS | Reddit.

Record Analysis := {
  analysis_categories : gset string;
  mentioned_locations : gset string
}.

(** The event dictionary of [master_scraper.py]. The feed path builds it
    without a [media_urls] key, and its [link_original] is whatever
    [entry.get("link")] gives, [None] included. *)
Record Event := {
  event_id : string;
  source_type : SourceType;
  source_name : string;
  content_raw : string;
  content_summary : string;
  link_original : option string;
  timestamp_published : Z;
  timestamp_scraped : Z;
  media_urls : option (list string);
  analysis : Analysis
}.

(** [[submission.url] if not submission.is_self and "reddit.com" not in
    submission.url else []] *)
Definition reddit_media_urls (submission : Submission.t) : list string :=
  if negb (Submission.is_self submission)
     && negb (PyStr.contains "reddit.com" (Submission.url submission))
  then [Submission.url submission]
  else [].

(** [[submission.link_flair_text] if submission.link_flair_text else []] *)
Definition flair_list (submission : Submission.t) : list string :=
  match Submission.link_flair_text submission with
  | Some flair => if PyStr.truthy (Some flair) then [flair] else []
  | None => []
  end.

(** ** Event normaliser of [master_scraper.py] *)

Section Normalizer.

(** The external collaborators: the feed parser; the conversion of a
    parsed time to an instant, [datetime.fromtimestamp(mktime(...),
    timezone.utc)], which raises on a time it cannot convert; the
    successive readings of [datetime.now(timezone.utc)]; and the instants
    [datetime.fromtimestamp] accepts, on every other one it raises. *)
Variable parse : string -> exc (list Entry.t).
Variable mktime : struct_time -> exc Z.
Variable utcnow : nat -> Z.
Variable representable : Z -> bool.

(** The body of the loop over [feed.entries], up to the construction of
    [event]; [tick] counts the clock readings taken so far. *)
Definition rss_event (source : string) (entry : Entry.t) (tick : nat)
    : exc Event :=
  let content_for_analysis :=
    default "" (Entry.title entry) +:+ ". " +:+ default "" (Entry.summary entry) in
  let analysis_results := analyze_content (Some content_for_analysis) in
  let published_dt :=
    match Entry.published_parsed entry with
    | Some st => mktime st
    | None => Ok (utcnow tick)
    end in
  match published_dt with
  | Raise msg => Raise msg
  | Ok published_dt =>
      Ok {| event_id :=
              "rss_" +:+ default (default "None" (Entry.link entry)) (Entry.id entry);
            source_type := RSS;
            source_name := source;
            content_raw := default "No Title" (Entry.title entry);
            content_summary := default "No Summary" (Entry.summary entry);
            link_original := Entry.link entry;
            timestamp_published := published_dt;
            timestamp_scraped := utcnow (S tick);
            media_urls := None;
            analysis :=
              {| analysis_categories := categories analysis_results;
                 mentioned_locations := locations analysis_results |} |}
  end.

(** The loop over [feed.entries]: an error leaves the loop and keeps the
    events appended so far. *)
Fixpoint rss_entries (source : string) (entries : list Entry.t)
    (tick : nat) (all_events : list Event) : list Event * nat :=
  match entries with
  | [] => (all_events, tick)
  | entry :: rest =>
      match rss_event source entry tick with
      | Raise _ => (all_events, S tick)
      | Ok event =>
          rss_entries source rest (S (S tick))
            (if PyStr.truthy (link_original event)
             then all_events ++ [event] else all_events)
      end
  end.

Fixpoint rss_feeds (feeds : list (string * string)) (tick : nat)
    (all_events : list Event) : list Event * nat :=
  match feeds with
  | [] => (all_events, tick)
  | (source, url) :: rest =>
      match parse url with
      | Raise _ => rss_feeds rest tick all_events
      | Ok entries =>
          let '(all_events', tick') := rss_entries source entries tick all_events in
          rss_feeds rest tick' all_events'
      end
  end.

Definition fetch_rss_data : list Event := fst (rss_feeds RSS_FEEDS 0 []).

(** The event the loop over [subreddit.new] builds for a post. Building it
    raises when [datetime.fromtimestamp] does not accept the post's
    [created_utc]; [reddit_posts] makes that test before it takes the
    event. *)
Definition reddit_event (sub : Subreddit) (submission : Submission.t)
    (tick : nat) : Event :=
  let content_for_analysis :=
    Submission.title submission +:+ ". " +:+ Submission.selftext submission in
  let analysis_results := analyze_content (Some content_for_analysis) in
  {| event_id := "reddit_" +:+ Submission.id submission;
     source_type := Reddit;
     source_name := "r/" +:+ display_name sub;
     content_raw :=
       Submission.title submission +:+ " :: " +:+ Submission.selftext submission;
     content_summary := Submission.title submission;
     link_original :=
       Some ("https://www.reddit.com" +:+ Submission.permalink submission);
     timestamp_published := Submission.created_utc submission;
     timestamp_scraped := utcnow tick;
     media_urls := Some (reddit_media_urls submission);
     analysis :=
       {| analysis_categories :=
            categories analysis_results ∪ list_to_set (flair_list submission);
          mentioned_locations := locations analysis_results |} |}.

(** The loop over [subreddit.new(limit=50)], inside its [try]: an error of
    the listing, or of [datetime.fromtimestamp] on the post at hand, ends
    the loop with the events gathered so far. *)
Fixpoint reddit_posts (sub : Subreddit) (posts : list (exc Submission.t))
    (tick : nat) (all_events : list Event) : list Event :=
  match posts with
  | [] => all_events
  | Raise _ :: _ => all_events
  | Ok submission :: rest =>
      if representable (Submission.created_utc submission) then
        reddit_posts sub rest (S tick)
          (all_events ++ [reddit_event sub submission tick])
      else all_events
  end.

Definition fetch_reddit_data (reddit_client : option RedditClient)
    : list Event :=
  match reddit_client with
  | None => []
  | Some client =>
      let sub := subreddit client SUBREDDIT_NAME in
      reddit_posts sub (new sub 50) 0 []
  end.

End Normalizer.

(** ** Ingestion store *)

(** A stored document: the fields of the event under a fresh [_id]. *)
Record Doc := {
  _id : nat;
  fields : Event
}.

(** The collection behind the unique index on [link_original] created by
    [setup_database]. [failures] is the environment's schedule of storage
    errors: its head tells whether the next write raises before it takes
    effect (an exhausted schedule means no further error). *)
Record Collection := {
  documents : list Doc;
  next_id : nat;
  failures : list bool
}.

Record UpdateResult := {
  matched_count : nat;
  upserted_id : option nat
}.

Definition has_link (l : option string) (d : Doc) : bool :=
  bool_decide (link_original (fields d) = l).

(** The first document matching [{'link_original': l}]. *)
Definition find_one (l : option string) (ds : list Doc) : option Doc :=
  List.find (has_link l) ds.

(** Insertion under the unique index: a document whose [link_original] is
    already stored is refused with a duplicate-key error. *)
Definition insert_one (d : Doc) (ds : list Doc) : exc (list Doc) :=
  if existsb (has_link (link_original (fields d))) ds
  then Raise "E11000 duplicate key error"
  else Ok (ds ++ [d]).

(** The collection after one write has been attempted. *)
Definition set_failures (c : Collection) (fs : list bool) : Collection :=
  {| documents := documents c; next_id := next_id c; failures := fs |}.

(** [collection.update_one({'link_original': l}, {'$setOnInsert': event},
    upsert=True)]. A matched document is left as it is, since
    [$setOnInsert] only applies to an insertion; without a match the event
    is inserted. *)
Definition update_one (c : Collection) (l : option string) (event : Event)
    : exc UpdateResult * Collection :=
  let c' := set_failures c (tail (failures c)) in
  match failures c with
  | true :: _ => (Raise "storage error", c')
  | _ =>
      match find_one l (documents c) with
      | Some _ => (Ok {| matched_count := 1; upserted_id := None |}, c')
      | None =>
          match insert_one {| _id := next_id c; fields := event |} (documents c) with
          | Raise msg => (Raise msg, c')
          | Ok ds =>
              (Ok {| matched_count := 0; upserted_id := Some (next_id c) |},
               {| documents := ds; next_id := S (next_id c);
                  failures := tail (failures c) |})
          end
      end
  end.

(** The [for event in events] loop of [store_events_in_db]. *)
Fixpoint store_loop (collection : Collection) (events : list Event)
    (events_added : nat) : nat * Collection :=
  match events with
  | [] => (events_added, collection)
  | event :: rest =>
      match update_one collection (link_original event) event with
      | (Ok result, collection') =>
          store_loop collection' rest
            (match upserted_id result with
             | Some _ => S events_added
             | None => events_added
             end)
      | (Raise _, collection') => store_loop collection' rest events_added
      end
  end.

Definition store_events_in_db (collection : Collection) (events : list Event)
    : nat * Collection :=
  match events with
  | [] => (0, collection)
  | _ => store_loop collection events 0
  end.


Definition stored_links (c : Collection) : list (option string) :=
  map (fun d => link_original (fields d)) (documents c).


(** ** One scraping cycle *)

(** The body of the entry point once set-up is done: the run halts when
    either the collection or the forum client is missing; otherwise the
    feed events are fetched and stored, then the forum events. The clock
    goes on ticking from one fetch to the next. *)
Definition main (parse : string -> exc (list Entry.t))
    (mktime : struct_time -> exc Z) (utcnow : nat -> Z)
    (representable : Z -> bool)
    (db_collection : option Collection) (reddit_client : option RedditClient)
    : option (nat * nat * Collection) :=
  match db_collection, reddit_client with
  | Some collection, Some client =>
      let '(rss_events, ticks) := rss_feeds parse mktime utcnow RSS_FEEDS 0 [] in
      let '(rss_added, collection1) := store_events_in_db collection rss_events in
      let reddit_posts :=
        fetch_reddit_data (fun n => utcnow (ticks + n)) representable
          (Some client) in
      let '(reddit_added, collection2) :=
        store_events_in_db collection1 reddit_posts in
      Some (rss_added, reddit_added, collection2)
  | _, _ => None
  end.

(** ** The earlier normaliser, [master_scraper_v1_working.py]

    This version has no classifier: an event carries the terms of the
    entry's tags, or the post's flair, in a top-level [categories] list. Its
    [setup_database] and [store_events_in_db] are those of
    [master_scraper.py], word for word. *)

Module V1.

Record Location := {
  text_raw : option string;
  geo_coordinates : option (Z * Z)
}.

Record Event := {
  event_id : string;
  source_type : SourceType;
  source_name : string;
  content_raw : string;
  content_summary : string;
  link_original : option string;
  timestamp_published : Z;
  timestamp_scraped : Z;
  location : Location;
  media_urls : list string;
  categories : list string
}.

Section Normalizer.

Variable parse : string -> exc (list Entry.t).
Variable mktime : struct_time -> exc Z.
Variable utcnow : nat -> Z.
Variable representable : Z -> bool.

Definition rss_event (source : string) (entry : Entry.t) (tick : nat)
    : exc Event :=
  let published_dt :=
    match Entry.published_parsed entry with
    | Some st => mktime st
    | None => Ok (utcnow tick)
    end in
  match published_dt with
  | Raise msg => Raise msg
  | Ok published_dt =>
      Ok {| event_id :=
              "rss_" +:+ default (default "None" (Entry.link entry)) (Entry.id entry);
            source_type := RSS;
            source_name := source;
            content_raw := default "No Title" (Entry.title entry);
            content_summary := default "No Summary" (Entry.summary entry);
            link_original := Entry.link entry;
            timestamp_published := published_dt;
            timestamp_scraped := utcnow (S tick);
            location := {| text_raw := None; geo_coordinates := None |};
            media_urls := [];
            categories := Entry.tags entry |}
  end.

Fixpoint rss_entries (source : string) (entries : list Entry.t)
    (tick : nat) (all_events : list Event) : list Event * nat :=
  match entries with
  | [] => (all_events, tick)
  | entry :: rest =>
      match rss_event source entry tick with
      | Raise _ => (all_events, S tick)
      | Ok event =>
          rss_entries source rest (S (S tick))
            (if PyStr.truthy (link_original event)
             then all_events ++ [event] else all_events)
      end
  end.

Fixpoint rss_feeds (feeds : list (string * string)) (tick : nat)
    (all_events : list Event) : list Event * nat :=
  match feeds with
  | [] => (all_events, tick)
  | (source, url) :: rest =>
      match parse url with
      | Raise _ => rss_feeds rest tick all_events
      | Ok entries =>
          let '(all_events', tick') :=
            rss_entries source entries tick all_events in
          rss_feeds rest tick' all_events'
      end
  end.

Definition fetch_rss_data : list Event := fst (rss_feeds RSS_FEEDS 0 []).

Definition reddit_event (sub : Subreddit) (submission : Submission.t)
    (tick : nat) : Event :=
  {| event_id := "reddit_" +:+ Submission.id submission;
     source_type := Reddit;
     source_name := "r/" +:+ display_name sub;
     content_raw :=
       Submission.title submission +:+ " :: " +:+ Submission.selftext submission;
     content_summary := Submission.title submission;
     link_original :=
       Some ("https://www.reddit.com" +:+ Submission.permalink submission);
     timestamp_published := Submission.created_utc submission;
     timestamp_scraped := utcnow tick;
     location := {| text_raw := Some (Submission.title submission);
                    geo_coordinates := None |};
     media_urls := reddit_media_urls submission;
     categories := flair_list submission |}.

Fixpoint reddit_posts (sub : Subreddit) (posts : list (exc Submission.t))
    (tick : nat) (all_events : list Event) : list Event :=
  match posts with
  | [] => all_events
  | Raise _ :: _ => all_events
  | Ok submission :: rest =>
      if representable (Submission.created_utc submission) then
        reddit_posts sub rest (S tick)
          (all_events ++ [reddit_event sub submission tick])
      else all_events
  end.

Definition fetch_reddit_data (reddit_client : option RedditClient)
    : list Event :=
  match reddit_client with
  | None => []
  | Some client =>
      let sub := subreddit client SUBREDDIT_NAME in
      reddit_posts sub (new sub 50) 0 []
  end.

End Normalizer.

End V1.

(** ** The specification's vocabulary *)

(** [k] occurs in [text] as a substring. *)
Definition occurs (k text : string) : Prop :=
  exists pre post, text = pre +:+ k +:+ post.

(** The two code points above 127 that have a letter of the alphabet in
    their lower-case form, in UTF-8: U+212A KELVIN SIGN and U+0130, the
    capital I with a dot. *)
Definition KELVIN_SIGN : string :=
  String "226" (String "132" (String "170" "")).

Definition CAPITAL_I_DOT : string := String "196" (String "176" "").

(** An ASCII character. *)
Definition plain (c : ascii) : bool := (nat_of_ascii c <? 128)%nat.

(** A capital letter as the small one, any other character as itself. *)
Definition fold_letter (c : ascii) : ascii :=
  match c with
  | "A" => "a" | "B" => "b" | "C" => "c" | "D" => "d" | "E" => "e"
  | "F" => "f" | "G" => "g" | "H" => "h" | "I" => "i" | "J" => "j"
  | "K" => "k" | "L" => "l" | "M" => "m" | "N" => "n" | "O" => "o"
  | "P" => "p" | "Q" => "q" | "R" => "r" | "S" => "s" | "T" => "t"
  | "U" => "u" | "V" => "v" | "W" => "w" | "X" => "x" | "Y" => "y"
  | "Z" => "z" | _ => c
  end%char.

Fixpoint fold_phrase (k : string) : string :=
  match k with
  | EmptyString => EmptyString
  | String c r => String (fold_letter c) (fold_phrase r)
  end.

(** A stretch of text reads as a phrase, letter case apart: character by
    character an ASCII character stands for itself, a capital letter for
    the small one, and the KELVIN SIGN for k; a capital I with a dot stands
    for an i that ends the phrase, since its lower-case form is i followed
    by a combining dot. *)
Inductive reads_as : string -> string -> Prop :=
  | reads_end : reads_as "" ""
  | reads_plain c m f :
      plain c = true -> reads_as m f ->
      reads_as (String c m) (String (fold_letter c) f)
  | reads_kelvin m f :
      reads_as m f -> reads_as (KELVIN_SIGN +:+ m) (String "k" f)
  | reads_dotted : reads_as CAPITAL_I_DOT "i".

(** [k] occurs in [text] as a substring, letter case apart. *)
Definition occurs_ci (k text : string) : Prop :=
  exists pre mid post,
    text = pre +:+ mid +:+ post /\ reads_as mid (fold_phrase k).

(** A category of the table one of whose trigger phrases occurs in the
    text, letter case apart. *)
Definition category_matches (table : list (string * list string))
    (text category : string) : Prop :=
  exists keywords keyword,
    (category, keywords) ∈ table /\ keyword ∈ keywords /\ occurs_ci keyword text.

(** The title-cased form of each configured place name. *)
Definition LOCATION_TAGS : list (string * string) :=
  [ ("koramangala", "Koramangala"); ("hsr layout", "Hsr Layout");
    ("indiranagar", "Indiranagar"); ("marathahalli", "Marathahalli");
    ("whitefield", "Whitefield"); ("btm layout", "Btm Layout");
    ("jayanagar", "Jayanagar"); ("jp nagar", "Jp Nagar");
    ("bellandur", "Bellandur"); ("electronic city", "Electronic City");
    ("majestic", "Majestic"); ("mg road", "Mg Road"); ("hebbal", "Hebbal");
    ("sarjapur", "Sarjapur"); ("old airport road", "Old Airport Road");
    ("silk board", "Silk Board"); ("tin factory", "Tin Factory");
    ("yelahanka", "Yelahanka"); ("manyata tech park", "Manyata Tech Park") ].

(** A small letter and a capital letter of the alphabet. *)
Definition small_letter (c : ascii) : bool :=
  (97 <=? nat_of_ascii c)%nat && (nat_of_ascii c <=? 122)%nat.

Definition capital_letter (c : ascii) : bool :=
  (65 <=? nat_of_ascii c)%nat && (nat_of_ascii c <=? 90)%nat.

(** Every word starts with a character that is no small letter and goes on
    without a capital letter; a word is a run of letters. *)
Fixpoint capitalised_from (in_word : bool) (s : string) : bool :=
  match s with
  | EmptyString => true
  | String c r =>
      (if in_word then negb (capital_letter c) else negb (small_letter c))
      && capitalised_from (small_letter c || capital_letter c) r
  end.

Definition capitalised (s : string) : bool := capitalised_from false s.

(** A phrase of ASCII characters without capital letters. *)
Fixpoint plain_lower (k : string) : bool :=
  match k with
  | EmptyString => true
  | String c r => plain c && bool_decide (fold_letter c = c) && plain_lower r
  end.

(** The first character of [b] is none of the bytes that continue a KELVIN
    SIGN or a capital I with a dot. *)
Definition clean (b : string) : bool :=
  match b with
  | EmptyString => true
  | String d _ =>
      negb (bool_decide (d = "132"%char)) && negb (bool_decide (d = "170"%char))
      && negb (bool_decide (d = "176"%char))
  end.

(** Neither of the two sequences starts at [String c r]. *)
Definition single (c : ascii) (r : string) : Prop :=
  ~ (c = "226"%char /\ exists r2, r = String "132" (String "170" r2)) /\
  ~ (c = "196"%char /\ exists r1, r = String "176" r1).

(** The host of a URL: what follows the first "://" (the whole string
    when there is none), up to the first of '/', '?', '#' and ':', in
    lower case. *)
Fixpoint after_scheme (s : string) : option string :=
  match s with
  | EmptyString => None
  | String c r =>
      if PyStr.startswith "://" s
      then Some (substring 3 (String.length s - 3) s)
      else after_scheme r
  end.

Fixpoint authority (s : string) : string :=
  match s with
  | EmptyString => EmptyString
  | String c r =>
      if bool_decide (c ∈ ["/"; "?"; "#"; ":"]%char) then EmptyString
      else String c (authority r)
  end.

Definition url_host (url : string) : string :=
  PyStr.lower (authority (default url (after_scheme url))).

Fixpoint endswith (p s : string) : bool :=
  bool_decide (s = p) ||
  match s with
  | EmptyString => false
  | String _ r => endswith p r
  end.

(** The URL points into the forum's own domain: its host is [reddit.com]
    or one of its subdomains. *)
Definition in_forum_domain (url : string) : bool :=
  bool_decide (url_host url = "reddit.com") || endswith ".reddit.com" (url_host url).

(** The documents a batch adds when no write fails: in order, the events
    whose link is neither stored nor carried by an earlier event. *)
Fixpoint first_new (seen : list (option string)) (events : list Event)
    : list Event :=
  match events with
  | [] => []
  | e :: rest =>
      if bool_decide (link_original e ∈ seen) then first_new seen rest
      else e :: first_new (seen ++ [link_original e]) rest
  end.

(** The documents made of a list of events, numbered from [n]. *)
Fixpoint number_from (n : nat) (events : list Event) : list Doc :=
  match events with
  | [] => []
  | e :: rest => {| _id := n; fields := e |} :: number_from (S n) rest
  end.

(** The links of a batch, as a set. *)
Definition distinct_links (events : list Event) : gset (option string) :=
  list_to_set (map link_original events).

(** No write of the schedule fails. *)
Definition no_failure (c : Collection) : Prop :=
  Forall (fun b => b = false) (failures c).

(** Every trigger phrase of the table is non-empty and made of ASCII
    characters without capital letters, which is what searching the
    lower-cased text for it relies on. *)
Definition plain_phrase (k : string) : Prop := k <> "" /\ plain_lower k = true.

Definition plain_table (table : list (string * list string)) : Prop :=
  Forall (fun entry => Forall plain_phrase (snd entry)) table.

(** ** Sample data *)

Definition empty_collection : Collection :=
  {| documents := []; next_id := 0; failures := [] |}.

(** A feed event as [fetch_rss_data] builds it for an entry with a link and
    a title, read at instant 0. *)
Definition feed_event (source link title : string) : Event :=
  let analysis_results := analyze_content (Some (title +:+ ". ")) in
  {| event_id := "rss_" +:+ link;
     source_type := RSS;
     source_name := source;
     content_raw := title;
     content_summary := "No Summary";
     link_original := Some link;
     timestamp_published := 0;
     timestamp_scraped := 0;
     media_urls := None;
     analysis := {| analysis_categories := categories analysis_results;
                    mentioned_locations := locations analysis_results |} |}.

Definition article_toi : Event :=
  feed_event "TimesOfIndia" "https://example.org/bengaluru/metro"
    "Metro line opens near MG Road".

Definition article_mirror : Event :=
  feed_event "BangaloreMirror" "https://example.org/bengaluru/metro"
    "Metro line opens".

Definition article_hindu : Event :=
  feed_event "TheHindu" "https://example.org/bengaluru/lakes"
    "Garbage cleared at Bellandur lake".

Definition repeated_batch : list Event := [article_toi; article_mirror].

Definition distinct_batch : list Event := [article_toi; article_hindu].

(** A link post whose target is on an unrelated host and carries the
    text "reddit.com" in its path, and a self post. *)
Definition link_post : Submission.t :=
  {| Submission.id := "1abcde";
     Submission.title := "Flyover closed this weekend";
     Submission.selftext := "";
     Submission.permalink := "/r/bangalore/comments/1abcde/flyover_closed/";
     Submission.created_utc := 1700000000;
     Submission.url := "https://example.com/mirror/reddit.com/flyover.png";
     Submission.is_self := false;
     Submission.link_flair_text := None |}.

Definition self_post : Submission.t :=
  {| Submission.id := "1abcdf";
     Submission.title := "Any good dosa places?";
     Submission.selftext := "Looking for suggestions.";
     Submission.permalink := "/r/bangalore/comments/1abcdf/any_good_dosa_places/";
     Submission.created_utc := 1700000100;
     Submission.url :=
       "https://www.reddit.com/r/bangalore/comments/1abcdf/any_good_dosa_places/";
     Submission.is_self := true;
     Submission.link_flair_text := None |}.

(** A link post whose target is an image on another site. *)
Definition image_post : Submission.t :=
  {| Submission.id := "1abcdg";
     Submission.title := "Sunset over Hebbal lake";
     Submission.selftext := "";
     Submission.permalink := "/r/bangalore/comments/1abcdg/sunset_over_hebbal_lake/";
     Submission.created_utc := 1700000200;
     Submission.url := "https://i.imgur.com/sunset.jpg";
     Submission.is_self := false;
     Submission.link_flair_text := Some "Photography" |}.

Definition sample_subreddit : Subreddit :=
  {| display_name := "bangalore";
     new := fun _ => [Ok link_post; Ok self_post; Ok image_post] |}.

(** The instants of the years 1 to 9999, those a [datetime] can hold, and a
    post whose [created_utc] lies far outside them, in a listing between
    two ordinary posts. *)
Definition year_range (z : Z) : bool :=
  ((-62135596800 <=? z) && (z <=? 253402300799))%Z.

Definition far_post : Submission.t :=
  {| Submission.id := "1abcdh";
     Submission.title := "Lake walk next month";
     Submission.selftext := "";
     Submission.permalink := "/r/bangalore/comments/1abcdh/lake_walk_next_month/";
     Submission.created_utc := 1000000000000000000;
     Submission.url :=
       "https://www.reddit.com/r/bangalore/comments/1abcdh/lake_walk_next_month/";
     Submission.is_self := true;
     Submission.link_flair_text := None |}.

Definition far_subreddit : Subreddit :=
  {| display_name := "bangalore";
     new := fun _ => [Ok link_post; Ok far_post; Ok image_post] |}.

Definition far_client : RedditClient :=
  {| subreddit := fun _ => far_subreddit |}.

Definition sample_client : RedditClient :=
  {| subreddit := fun _ => sample_subreddit |}.

(** A feed entry with a link and no tags. *)
Definition untagged_entry : Entry.t :=
  {| Entry.id := None;
     Entry.link := Some "https://example.org/bengaluru/weather";
     Entry.title := Some "Weather update";
     Entry.summary := None;
     Entry.published_parsed := None;
     Entry.tags := [] |}.

(** A feed entry without a link, and a parser that serves the two entries
    for the first feed and fails on the others. *)
Definition linkless_entry : Entry.t :=
  {| Entry.id := Some "tag:example.org,2024:1";
     Entry.link := None;
     Entry.title := Some "No link here";
     Entry.summary := None;
     Entry.published_parsed := None;
     Entry.tags := [] |}.

Definition sample_parse (url : string) : exc (list Entry.t) :=
  if bool_decide (url = "https://timesofindia.indiatimes.com/rssfeeds/-2128833038.cms")
  then Ok [linkless_entry; untagged_entry]
  else Raise "feed not reachable".

(** ** Set-up of the forum client *)

Section Setup.

(** [os.getenv], the constructor [praw.Reddit] (client id, secret, user
    agent, request timeout) and the call [reddit.user.me()] that tests the
    credentials. *)
Variable getenv : string -> option string.
Variable praw_Reddit : string -> string -> string -> nat -> exc RedditClient.
Variable user_me : RedditClient -> exc unit.

Definition setup_reddit_client : option RedditClient :=
  let client_id := getenv "REDDIT_CLIENT_ID" in
  let client_secret := getenv "REDDIT_CLIENT_SECRET" in
  let user_agent := getenv "REDDIT_USER_AGENT" in
  if negb (forallb PyStr.truthy [client_id; client_secret; user_agent])
  then None
  else
    match praw_Reddit (default "" client_id) (default "" client_secret)
            (default "" user_agent) 15 with
    | Raise _ => None
    | Ok reddit =>
        match user_me reddit with
        | Raise _ => None
        | Ok _ => Some reddit
        end
    end.

End Setup.

(** ** Further vocabulary *)

(** The posts of a listing that come before its first error and before
    the first post whose instant cannot be represented. *)
Fixpoint yielded (representable : Z -> bool) (posts : list (exc Submission.t))
    : list Submission.t :=
  match posts with
  | Ok submission :: rest =>
      if representable (Submission.created_utc submission)
      then submission :: yielded representable rest
      else []
  | _ => []
  end.

(** The published time of the entry, if any, can be converted. *)
Definition convertible (mktime : struct_time -> exc Z) (entry : Entry.t)
    : bool :=
  match Entry.published_parsed entry with
  | Some st => match mktime st with Ok _ => true | Raise _ => false end
  | None => true
  end.

(** The entries of a feed before the first one that cannot be converted. *)
Fixpoint before_error (mktime : struct_time -> exc Z)
    (entries : list Entry.t) : list Entry.t :=
  match entries with
  | [] => []
  | entry :: rest =>
      if convertible mktime entry then entry :: before_error mktime rest
      else []
  end.

(** The links a feed contributes: the non-empty links of its entries, up
    to the first conversion error. *)
Definition entry_links (mktime : struct_time -> exc Z)
    (entries : list Entry.t) : list (option string) :=
  List.filter PyStr.truthy (map Entry.link (before_error mktime entries)).

Definition feed_links (parse : string -> exc (list Entry.t))
    (mktime : struct_time -> exc Z) (feeds : list (string * string))
    : list (option string) :=
  flat_map (fun feed =>
              match parse (snd feed) with
              | Ok entries => entry_links mktime entries
              | Raise _ => []
              end) feeds.

Definition reddit_link (submission : Submission.t) : option string :=
  Some ("https://www.reddit.com" +:+ Submission.permalink submission).

(** The fields the two versions of the normaliser share. *)
Definition common (e : Event)
    : string * SourceType * string * string * string * option string * Z * Z :=
  (event_id e, source_type e, source_name e, content_raw e,
   content_summary e, link_original e, timestamp_published e,
   timestamp_scraped e).

Definition common_v1 (e : V1.Event)
    : string * SourceType * string * string * string * option string * Z * Z :=
  (V1.event_id e, V1.source_type e, V1.source_name e, V1.content_raw e,
   V1.content_summary e, V1.link_original e, V1.timestamp_published e,
   V1.timestamp_scraped e).

(** The character [c] does not occur in [s]. *)
Fixpoint lacks (c : ascii) (s : string) : bool :=
  match s with
  | EmptyString => true
  | String x r => negb (bool_decide (x = c)) && lacks c r
  end.

(** A phrase that cannot reach across the separator ". " put between a
    title and a body: it has no full stop and does not start with a
    space. *)
Definition separable (k : string) : Prop :=
  lacks "." k = true /\ PyStr.startswith " " k = false.

(** Environments for the set-up of the forum client. *)
Definition full_env (name : string) : option string :=
  if bool_decide (name = "REDDIT_CLIENT_ID") then Some "id"
  else if bool_decide (name = "REDDIT_CLIENT_SECRET") then Some "secret"
  else if bool_decide (name = "REDDIT_USER_AGENT") then Some "pulse/1.0"
  else None.

Definition blank_secret_env (name : string) : option string :=
  if bool_decide (name = "REDDIT_CLIENT_SECRET") then Some ""
  else full_env name.

(** An entry with a published time, and a [mktime] that rejects every
    time. *)
Definition dated_entry : Entry.t :=
  {| Entry.id := None;
     Entry.link := Some "https://example.org/bengaluru/rain";
     Entry.title := Some "Rain expected";
     Entry.summary := None;
     Entry.published_parsed := Some [2024; 1; 1; 0; 0; 0; 0; 1; 0]%Z;
     Entry.tags := [] |}.

Definition failing_mktime (st : struct_time) : exc Z :=
  Raise "mktime argument out of range".

(** * Properties *)

(** ** Strings *)

Section StringFacts.

Lemma startswith_spec p s :
  PyStr.startswith p s = true <-> exists post, s = p +:+ post.
Proof.
  revert s. induction p as [|a p IH]; intros s; simpl.
  - split; [intros _; by exists s | done].
  - destruct s as [|b s].
    + split; [done | by intros [post ?]].
    + rewrite andb_true_iff, bool_decide_eq_true, IH. split.
      * intros [-> [post ->]]. by exists post.
      * intros [post Heq]. injection Heq as -> ->. eauto.
Qed.

Lemma contains_spec k s : PyStr.contains k s = true <-> occurs k s.
Proof.
  unfold occurs. induction s as [|b s IH].
  - simpl. rewrite orb_false_r, startswith_spec. split.
    + intros [post Heq]. by exists "", post.
    + intros [pre [post Heq]]. destruct pre; [by exists post | done].
  - cbn [PyStr.contains]. rewrite orb_true_iff, startswith_spec, IH. split.
    + intros [[post Heq] | [pre [post Heq]]].
      * by exists "", post.
      * exists (String b pre), post. simpl. by rewrite Heq.
    + intros [pre [post Heq]]. destruct pre as [|c pre].
      * left. by exists post.
      * right. simpl in Heq. injection Heq as -> ->. eauto.
Qed.

Lemma append_cons x (a b : string) : String x a +:+ b = String x (a +:+ b).
Proof. done. Qed.

Lemma append_assoc_s (a b c : string) : (a +:+ b) +:+ c = a +:+ b +:+ c.
Proof.
  induction a as [|x a IH]; [done |]. by rewrite !append_cons, IH.
Qed.

Lemma lower_kelvin r :
  PyStr.lower (KELVIN_SIGN +:+ r) = String "k" (PyStr.lower r).
Proof. done. Qed.

Lemma lower_dotted r :
  PyStr.lower (CAPITAL_I_DOT +:+ r) =
  String "i" (String "204" (String "135" (PyStr.lower r))).
Proof. done. Qed.

(** Where neither of the two sequences starts, [lower] goes one
    character at a time. *)
Lemma lower_single c r :
  single c r ->
  PyStr.lower (String c r) = String (PyStr.lower_char c) (PyStr.lower r).
Proof.
  intros [HK HI]. cbn [PyStr.lower].
  case_bool_decide as Hc.
  - subst c. destruct r as [|c1 [|c2 r2]]; try done.
    destruct (bool_decide (c1 = "132"%char) && bool_decide (c2 = "170"%char))
      eqn:H; [| done].
    apply andb_true_iff in H as [->%bool_decide_eq_true ->%bool_decide_eq_true].
    exfalso. apply HK. eauto.
  - case_bool_decide as Hc'; [| done].
    subst c. destruct r as [|c1 r1]; [done |].
    case_bool_decide as H1; [| done]. subst c1. exfalso. apply HI. eauto.
Qed.

(** The three ways [lower] starts on a non-empty string. *)
Lemma lower_cases c r :
  (exists r2, String c r = KELVIN_SIGN +:+ r2) \/
  (exists r1, String c r = CAPITAL_I_DOT +:+ r1) \/
  single c r.
Proof.
  destruct (decide (c = "226"%char)) as [-> | Hc].
  - destruct r as [|c1 [|c2 r2]].
    + right. right. split; by intros [? [? ?]].
    + right. right. split; by intros [? [? ?]].
    + destruct (decide (c1 = "132"%char)) as [-> | H1];
        [destruct (decide (c2 = "170"%char)) as [-> | H2] |].
      * left. by exists r2.
      * right. right. split; [| by intros [? _]].
        intros [_ [? Heq]]. injection Heq as ?. done.
      * right. right. split; [| by intros [? _]].
        intros [_ [? Heq]]. injection Heq as ? ?. done.
  - destruct (decide (c = "196"%char)) as [-> | Hc'].
    + destruct r as [|c1 r1].
      * right. right. split; [by intros [? _] | by intros [_ [? ?]]].
      * destruct (decide (c1 = "176"%char)) as [-> | H1].
        -- right. left. by exists r1.
        -- right. right. split; [by intros [? _] |].
           intros [_ [? Heq]]. injection Heq as ?. done.
    + right. right. split; by intros [? _].
Qed.

(** Induction along the steps of [lower]. *)
Lemma lower_ind (P : string -> Prop) :
  P "" ->
  (forall r, P r -> P (KELVIN_SIGN +:+ r)) ->
  (forall r, P r -> P (CAPITAL_I_DOT +:+ r)) ->
  (forall c r, single c r -> P r -> P (String c r)) ->
  forall s, P s.
Proof.
  intros Hnil HK HI HS s.
  assert (forall n s, String.length s <= n -> P s) as H;
    [| by apply (H (String.length s))].
  clear s. induction n as [|n IH]; intros s Hlen.
  - destruct s; [done | simpl in Hlen; lia].
  - destruct s as [|c r]; [done |].
    destruct (lower_cases c r) as [[r2 Heq] | [[r1 Heq] | Hs]].
    + rewrite Heq. apply HK, IH.
      change (KELVIN_SIGN +:+ r2)
        with (String "226" (String "132" (String "170" r2))) in Heq.
      injection Heq as -> ->. simpl in Hlen. lia.
    + rewrite Heq. apply HI, IH.
      change (CAPITAL_I_DOT +:+ r1) with (String "196" (String "176" r1)) in Heq.
      injection Heq as -> ->. simpl in Hlen. lia.
    + apply HS; [done |]. apply IH. simpl in Hlen. lia.
Qed.

Lemma single_app c r b : single c r -> clean b = true -> single c (r +:+ b).
Proof.
  intros [HK HI] Hb. split.
  - intros [-> [r2 Hr]]. destruct r as [|c1 [|c2 r']].
    + change ("" +:+ b) with b in Hr. by subst b.
    + rewrite append_cons in Hr. injection Hr as -> Hr.
      change ("" +:+ b) with b in Hr. by subst b.
    + rewrite !append_cons in Hr. injection Hr as -> -> _. apply HK. eauto.
  - intros [-> [r1 Hr]]. destruct r as [|c1 r'].
    + change ("" +:+ b) with b in Hr. by subst b.
    + rewrite append_cons in Hr. injection Hr as -> _. apply HI. eauto.
Qed.

Lemma single_prefix c t1 t2 : single c (t1 +:+ t2) -> single c t1.
Proof.
  intros [HK HI]. split.
  - intros [-> [r2 ->]]. apply HK. split; [done |]. by exists (r2 +:+ t2).
  - intros [-> [r1 ->]]. apply HI. split; [done |]. by exists (r1 +:+ t2).
Qed.

(** [lower] goes through a concatenation whose second part starts
    cleanly. *)
Lemma lower_app_clean b :
  clean b = true ->
  forall a, PyStr.lower (a +:+ b) = PyStr.lower a +:+ PyStr.lower b.
Proof.
  intros Hb. induction a as [| r IH | r IH | c r Hs IH] using lower_ind.
  - done.
  - by rewrite append_assoc_s, !lower_kelvin, IH.
  - by rewrite append_assoc_s, !lower_dotted, IH.
  - rewrite append_cons, (lower_single c (r +:+ b)) by (by apply single_app).
    by rewrite (lower_single c r Hs), IH.
Qed.

Lemma fold_is_lower c : plain c = true -> fold_letter c = PyStr.lower_char c.
Proof. by destruct c as [[] [] [] [] [] [] [] []]. Qed.

Lemma lower_char_plain c : plain (PyStr.lower_char c) = plain c.
Proof. by destruct c as [[] [] [] [] [] [] [] []]. Qed.

Lemma plain_single c r : plain c = true -> single c r.
Proof. intros Hc. split; by intros [-> _]. Qed.

Lemma plain_clean c r : plain c = true -> clean (String c r) = true.
Proof. by destruct c as [[] [] [] [] [] [] [] []]. Qed.

(** What a stretch of text reads as starts its lower-case form. *)
Lemma reads_lower_prefix mid f :
  reads_as mid f ->
  forall post, exists y, PyStr.lower (mid +:+ post) = f +:+ y.
Proof.
  induction 1 as [| c m f Hc _ IH | m f _ IH |]; intros post.
  - by exists (PyStr.lower post).
  - destruct (IH post) as [y Hy]. exists y.
    rewrite append_cons, lower_single by (by apply plain_single).
    by rewrite Hy, fold_is_lower.
  - destruct (IH post) as [y Hy]. exists y.
    by rewrite append_assoc_s, lower_kelvin, Hy.
  - eexists. by rewrite lower_dotted.
Qed.

Lemma reads_clean mid f post :
  reads_as mid f -> f <> "" -> clean (mid +:+ post) = true.
Proof.
  destruct 1 as [| c m f Hc _ | |]; intros Hf; [done | | done | done].
  by apply plain_clean.
Qed.

(** A plain character of the lower-case form starts at a step of [lower]. *)
Lemma lower_split_plain text : forall x c z,
  plain c = true ->
  PyStr.lower text = x +:+ String c z ->
  exists t1 t2,
    text = t1 +:+ t2 /\ PyStr.lower t1 = x /\ PyStr.lower t2 = String c z.
Proof.
  induction text as [| r IH | r IH | d r Hs IH] using lower_ind;
    intros x c z Hc Heq.
  - destruct x; done.
  - destruct x as [|e x]; [by exists "", (KELVIN_SIGN +:+ r) |].
    rewrite lower_kelvin, append_cons in Heq. injection Heq as <- Heq.
    destruct (IH _ _ _ Hc Heq) as (t1 & t2 & -> & <- & Ht2).
    exists (KELVIN_SIGN +:+ t1), t2. by rewrite append_assoc_s, lower_kelvin.
  - destruct x as [|e x]; [by exists "", (CAPITAL_I_DOT +:+ r) |].
    rewrite lower_dotted, append_cons in Heq. injection Heq as <- Heq.
    destruct x as [|e1 x]; [injection Heq as <-; done |].
    rewrite append_cons in Heq. injection Heq as <- Heq.
    destruct x as [|e2 x]; [injection Heq as <-; done |].
    rewrite append_cons in Heq. injection Heq as <- Heq.
    destruct (IH _ _ _ Hc Heq) as (t1 & t2 & -> & <- & Ht2).
    exists (CAPITAL_I_DOT +:+ t1), t2. by rewrite append_assoc_s, lower_dotted.
  - destruct x as [|e x]; [by exists "", (String d r) |].
    rewrite (lower_single d r Hs), append_cons in Heq. injection Heq as <- Heq.
    destruct (IH _ _ _ Hc Heq) as (t1 & t2 & -> & <- & Ht2).
    exists (String d t1), t2. rewrite append_cons. split; [done |].
    split; [| done]. apply lower_single. by apply (single_prefix d t1 t2).
Qed.

(** A plain lower-case phrase that starts the lower-case form of a text is
    what a first stretch of the text reads as. *)
Lemma lower_prefix_reads k : forall t y,
  plain_lower k = true ->
  PyStr.lower t = k +:+ y ->
  exists mid post, t = mid +:+ post /\ reads_as mid k.
Proof.
  induction k as [|c k IH]; intros t y Hk Heq.
  - exists "", t. split; [done | constructor].
  - simpl in Hk. apply andb_true_iff in Hk as [Hc Hk].
    apply andb_true_iff in Hc as [Hc Hfold]. apply bool_decide_eq_true in Hfold.
    rewrite append_cons in Heq.
    destruct t as [|d r]; [done |].
    destruct (lower_cases d r) as [[r2 Ht] | [[r1 Ht] | Hs]].
    + rewrite Ht, lower_kelvin in Heq. injection Heq as <- Heq.
      destruct (IH _ _ Hk Heq) as (mid & post & -> & Hmid).
      exists (KELVIN_SIGN +:+ mid), post. rewrite Ht, append_assoc_s.
      split; [done | by constructor].
    + rewrite Ht, lower_dotted in Heq. injection Heq as <- Heq.
      destruct k as [|c1 k];
        [exists CAPITAL_I_DOT, r1; split; [done | constructor] |].
      rewrite append_cons in Heq. injection Heq as <- _. done.
    + rewrite (lower_single d r Hs) in Heq. injection Heq as <- Heq.
      rewrite lower_char_plain in Hc.
      destruct (IH _ _ Hk Heq) as (mid & post & -> & Hmid).
      exists (String d mid), post. split; [done |].
      rewrite <- (fold_is_lower d Hc). by constructor.
Qed.

Lemma fold_plain_lower k : plain_lower k = true -> fold_phrase k = k.
Proof.
  induction k as [|c k IH]; [done |]. simpl.
  intros [[_ Hc%bool_decide_eq_true]%andb_true_iff Hk]%andb_true_iff.
  by rewrite Hc, IH.
Qed.

(** Searching the lower-cased text for a plain lower-case phrase finds it
    exactly where a stretch of the text reads as the phrase. *)
Lemma contains_lower_reads k text :
  plain_phrase k ->
  PyStr.contains k (PyStr.lower text) = true <-> occurs_ci k text.
Proof.
  intros [Hne Hk]. rewrite contains_spec. unfold occurs, occurs_ci.
  rewrite (fold_plain_lower k Hk). split.
  - intros (x & y & Heq). destruct k as [|c k]; [done |].
    rewrite append_cons in Heq.
    assert (plain c = true) as Hc.
    { simpl in Hk. by apply andb_true_iff in Hk as [[? _]%andb_true_iff _]. }
    apply lower_split_plain in Heq as (t1 & t2 & -> & _ & Ht2); [| done].
    rewrite <- append_cons in Ht2.
    apply lower_prefix_reads in Ht2 as (mid & post & -> & Hmid); [| done].
    by exists t1, mid, post.
  - intros (pre & mid & post & -> & Hmid).
    destruct (reads_lower_prefix mid k Hmid post) as [y Hy].
    exists (PyStr.lower pre), y.
    rewrite lower_app_clean by (by apply (reads_clean mid k)).
    by rewrite Hy.
Qed.

Lemma reads_empty f : reads_as "" f -> f = "".
Proof. by inversion 1. Qed.

Lemma occurs_ci_empty k : k <> "" -> ~ occurs_ci k "".
Proof.
  intros Hk (pre & mid & post & Heq & Hm).
  destruct pre; [| done]. destruct mid; [| done].
  apply reads_empty in Hm. by destruct k.
Qed.

Lemma occurs_ci_grows k pre t post :
  occurs_ci k t -> occurs_ci k (pre +:+ t +:+ post).
Proof.
  intros (a & m & b & -> & Hm). exists (pre +:+ a), m, (b +:+ post).
  split; [| done]. by rewrite !append_assoc_s.
Qed.

End StringFacts.

(** ** Classifier *)

Lemma elem_of_categories_found tbl content_lower c :
  c ∈ categories_found tbl content_lower <->
  exists keywords keyword,
    (c, keywords) ∈ tbl /\ keyword ∈ keywords /\
    PyStr.contains keyword content_lower = true.
Proof.
  induction tbl as [|[category kws] rest IH]; simpl.
  - split; [set_solver |]. intros (? & ? & Hin & _). by apply elem_of_nil in Hin.
  - destruct (existsb _ kws) eqn:Hex.
    + rewrite elem_of_union, elem_of_singleton, IH. split.
      * intros [-> | (keywords & k & Hin & Hk & Hc)].
        -- apply existsb_exists in Hex as (k & Hk & Hc).
           exists kws, k. split; [by left |].
           split; [by apply list_elem_of_In | done].
        -- exists keywords, k. split; [by right | done].
      * intros (keywords & k & Hin & Hk & Hc).
        apply elem_of_cons in Hin as [Heq | Hin]; [left; congruence |].
        right. eauto.
    + rewrite IH. split.
      * intros (keywords & k & Hin & Hk & Hc). exists keywords, k.
        split; [by right | done].
      * intros (keywords & k & Hin & Hk & Hc).
        apply elem_of_cons in Hin as [Heq | Hin]; [| eauto].
        injection Heq as -> ->.
        assert (existsb (fun keyword => PyStr.contains keyword content_lower) kws = true)
          as Habs; [| congruence].
        apply existsb_exists. exists k. by rewrite <- list_elem_of_In.
Qed.

Lemma elem_of_locations_found nms content_lower l :
  l ∈ locations_found nms content_lower <->
  exists location,
    location ∈ nms /\ PyStr.contains location content_lower = true /\
    l = PyStr.title location.
Proof.
  induction nms as [|n rest IH]; simpl.
  - split; [set_solver |]. intros (? & Hin & _). by apply elem_of_nil in Hin.
  - destruct (PyStr.contains n content_lower) eqn:Hc.
    + rewrite elem_of_union, elem_of_singleton, IH. split.
      * intros [-> | (loc & Hin & Hl & ->)]; [exists n | exists loc];
          (split; [by constructor | done]).
      * intros (loc & Hin & Hl & ->).
        apply elem_of_cons in Hin as [-> | Hin]; [by left | right; eauto].
    + rewrite IH. split.
      * intros (loc & Hin & Hl & ->). exists loc. split; [by right | done].
      * intros (loc & Hin & Hl & ->).
        apply elem_of_cons in Hin as [-> | Hin]; [congruence | eauto].
Qed.

Lemma analyze_categories_nonempty table names text :
  categories (analyze_content_with table names text) <> ∅.
Proof.
  unfold analyze_content_with.
  destruct (negb (PyStr.truthy text)); simpl; [set_solver |].
  case_bool_decide; [set_solver | done].
Qed.

Section ClassifierFacts.

Variable table : list (string * list string).
Variable names : list string.
Hypothesis table_plain : plain_table table.
Hypothesis names_plain : Forall plain_phrase names.

Lemma table_phrase category keywords keyword :
  (category, keywords) ∈ table -> keyword ∈ keywords -> plain_phrase keyword.
Proof.
  clear names_plain.
  intros Hin Hk. unfold plain_table in table_plain.
  rewrite Forall_forall in table_plain. specialize (table_plain _ Hin).
  rewrite Forall_forall in table_plain. by apply table_plain.
Qed.

Lemma categories_found_matches text c :
  c ∈ categories_found table (PyStr.lower text) <-> category_matches table text c.
Proof.
  clear names_plain.
  rewrite elem_of_categories_found. unfold category_matches.
  split; intros (keywords & k & Hin & Hk & Hc); exists keywords, k;
    (split; [done | split; [done |]]);
    by apply (contains_lower_reads k text (table_phrase _ _ _ Hin Hk)).
Qed.

Lemma locations_found_matches text l :
  l ∈ locations_found names (PyStr.lower text) <->
  exists location,
    location ∈ names /\ occurs_ci location text /\ l = PyStr.title location.
Proof.
  clear table_plain.
  rewrite elem_of_locations_found. rewrite Forall_forall in names_plain.
  split; intros (loc & Hin & Hc & ->); exists loc;
    (split; [done | split; [| done]]);
    by apply (contains_lower_reads loc text (names_plain _ Hin)).
Qed.

Lemma no_match_in_empty c : ~ category_matches table "" c.
Proof.
  clear names_plain.
  intros (keywords & k & Hin & Hk & Hocc).
  destruct (table_phrase _ _ _ Hin Hk) as [Hne _].
  by apply (occurs_ci_empty k).
Qed.

(** The category rule, for any table of plain phrases. *)
Lemma analyze_categories_with text c :
  c ∈ categories (analyze_content_with table names text) <->
  category_matches table (default "" text) c \/
  ((forall c', ~ category_matches table (default "" text) c') /\ c = "general").
Proof.
  clear names_plain.
  assert (c ∈ ({[ "general" ]} : gset string) <->
          category_matches table "" c \/
          ((forall c', ~ category_matches table "" c') /\ c = "general"))
    as Hempty.
  { rewrite elem_of_singleton. split.
    - intros ->. right. split; [apply no_match_in_empty | done].
    - intros [H | [_ ->]]; [by apply no_match_in_empty in H | done]. }
  destruct text as [[|a text]|]; [exact Hempty | | exact Hempty].
  set (t := String a text).
  set (found := categories_found table (PyStr.lower t)).
  change (c ∈ (if bool_decide (found = ∅) then {[ "general" ]} else found) <->
          category_matches table t c \/
          ((forall c', ~ category_matches table t c') /\ c = "general")).
  case_bool_decide as Hcats.
  - rewrite elem_of_singleton. split.
    + intros ->. right. split; [| done]. intros c' Hm.
      apply categories_found_matches in Hm. fold found in Hm.
      rewrite Hcats in Hm. by apply not_elem_of_empty in Hm.
    + intros [Hm | [_ ->]]; [| done].
      apply categories_found_matches in Hm. fold found in Hm.
      rewrite Hcats in Hm. by apply not_elem_of_empty in Hm.
  - unfold found. rewrite categories_found_matches. split; [by left |].
    intros [Hm | [Hno _]]; [done |].
    apply set_choose_L in Hcats as [x Hx].
    apply categories_found_matches in Hx. by apply Hno in Hx.
Qed.

(** The location rule, for any list of plain names. *)
Lemma analyze_locations_with text l :
  l ∈ locations (analyze_content_with table names text) <->
  exists location,
    location ∈ names /\ occurs_ci location (default "" text) /\
    l = PyStr.title location.
Proof.
  clear table_plain.
  assert (l ∈ (∅ : gset string) <->
          exists location,
            location ∈ names /\ occurs_ci location "" /\
            l = PyStr.title location) as Hempty.
  { split; [by intros ?%not_elem_of_empty |].
    intros (loc & Hin & Hocc & _). rewrite Forall_forall in names_plain.
    apply names_plain in Hin as [Hne _]. by apply (occurs_ci_empty loc) in Hocc. }
  destruct text as [[|a text]|]; [exact Hempty | | exact Hempty].
  apply (locations_found_matches (String a text)).
Qed.

End ClassifierFacts.

Lemma plain_phrase_check k :
  negb (String.eqb k "") && plain_lower k = true -> plain_phrase k.
Proof.
  intros [Hne Hlow]%andb_prop. split; [| done].
  intros ->. by rewrite String.eqb_refl in Hne.
Qed.

Lemma plain_phrases_check names :
  forallb (fun k => negb (String.eqb k "") && plain_lower k) names = true ->
  Forall plain_phrase names.
Proof.
  induction names as [|k rest IH]; simpl; [constructor |].
  intros [Hk Hrest]%andb_prop. constructor; [by apply plain_phrase_check | auto].
Qed.

Lemma KEYWORD_CATEGORIES_plain : plain_table KEYWORD_CATEGORIES.
Proof.
  unfold plain_table, KEYWORD_CATEGORIES.
  repeat (apply Forall_cons_2; [apply plain_phrases_check; reflexivity |]).
  apply Forall_nil_2.
Qed.

Lemma BANGALORE_LOCATIONS_plain : Forall plain_phrase BANGALORE_LOCATIONS.
Proof. apply plain_phrases_check. reflexivity. Qed.

(** The tags of [LOCATION_TAGS] are what [title] makes of the names. *)
Lemma location_tags_title :
  map (fun name => (name, PyStr.title name)) BANGALORE_LOCATIONS = LOCATION_TAGS.
Proof. reflexivity. Qed.

(** C2: the categories [analyze_content] returns are exactly the category
    names of [KEYWORD_CATEGORIES] one of whose trigger phrases occurs in the
    text, letter case apart; when no category matches they are exactly
    ["general"]; an empty or absent text gives ["general"] and no location.
    What occurring letter case apart means is said by [reads_as], character
    by character and without reference to the classifier. *)
Theorem classifier_category_rule :
  (forall (text : option string) (c : string),
      c ∈ categories (analyze_content text) <->
      category_matches KEYWORD_CATEGORIES (default "" text) c \/
      ((forall c', ~ category_matches KEYWORD_CATEGORIES (default "" text) c') /\
       c = "general")) /\
  analyze_content None = {| categories := {[ "general" ]}; locations := ∅ |} /\
  analyze_content (Some "") = {| categories := {[ "general" ]}; locations := ∅ |}.
Proof.
  split; [| done].
  intros text c. apply analyze_categories_with, KEYWORD_CATEGORIES_plain.
Qed.

(** C9: the locations [analyze_content] returns are exactly the title-cased
    forms of the names of [BANGALORE_LOCATIONS] that occur in the text,
    letter case apart; every such name is included. The title-cased forms
    are those of [LOCATION_TAGS], one for each configured name: each is
    its name with the first letter of every word made a capital. *)
Theorem classifier_location_rule :
  map fst LOCATION_TAGS = BANGALORE_LOCATIONS /\
  Forall (fun entry => fold_phrase (snd entry) = fst entry /\
                       capitalised (snd entry) = true) LOCATION_TAGS /\
  (forall (text : option string) (l : string),
      l ∈ locations (analyze_content text) <->
      exists name tag,
        (name, tag) ∈ LOCATION_TAGS /\ occurs_ci name (default "" text) /\
        l = tag).
Proof.
  split; [reflexivity |].
  split; [repeat (apply Forall_cons_2; [split; reflexivity |]); apply Forall_nil_2 |].
  intros text l. unfold analyze_content.
  rewrite (analyze_locations_with _ _ BANGALORE_LOCATIONS_plain).
  rewrite <- location_tags_title. split.
  - intros (name & Hin & Ho & ->). exists name, (PyStr.title name).
    split; [| done]. apply list_elem_of_fmap. by exists name.
  - intros (name & tag & Hin & Ho & ->).
    apply list_elem_of_fmap in Hin as (n & [= -> ->] & Hn). by exists n.
Qed.

Example title_of_locations :
  map PyStr.title BANGALORE_LOCATIONS =
  [ "Koramangala"; "Hsr Layout"; "Indiranagar"; "Marathahalli"; "Whitefield";
    "Btm Layout"; "Jayanagar"; "Jp Nagar"; "Bellandur"; "Electronic City";
    "Majestic"; "Mg Road"; "Hebbal"; "Sarjapur"; "Old Airport Road";
    "Silk Board"; "Tin Factory"; "Yelahanka"; "Manyata Tech Park" ].
Proof. reflexivity. Qed.

Example classify_silk_board :
  let r := analyze_content (Some "Heavy traffic jam near Silk Board") in
  elements (categories r) = ["traffic"] /\ elements (locations r) = ["Silk Board"].
Proof. by vm_compute. Qed.

Example classify_koramangala :
  let r := analyze_content (Some "Exhibition at Koramangala this weekend") in
  elements (categories r) = ["cultural_event"] /\
  elements (locations r) = ["Koramangala"].
Proof. by vm_compute. Qed.

Example classify_nothing :
  let r := analyze_content (Some "Nothing to report") in
  elements (categories r) = ["general"] /\ elements (locations r) = [].
Proof. by vm_compute. Qed.

(** Lower-casing goes beyond the alphabet: [str.lower] turns the KELVIN
    SIGN into k, and the capital I with a dot into i and a combining dot,
    so a text written with them matches too. *)
Example classify_kelvin_sign :
  let r := analyze_content
             (Some ("Flea mar" +:+ KELVIN_SIGN +:+ "et at Sil" +:+ KELVIN_SIGN +:+
                    " Board")) in
  elements (categories r) = ["cultural_event"] /\
  elements (locations r) = ["Silk Board"].
Proof. by vm_compute. Qed.

Example classify_dotted_capital :
  PyStr.lower ("MARATHAHALL" +:+ CAPITAL_I_DOT) =
  "marathahalli" +:+ String "204" (String "135" "") /\
  elements (locations
              (analyze_content (Some ("MARATHAHALL" +:+ CAPITAL_I_DOT)))) =
  ["Marathahalli"] /\
  elements (categories
              (analyze_content (Some ("FEST" +:+ CAPITAL_I_DOT +:+ "VAL")))) =
  ["general"].
Proof. by vm_compute. Qed.

(** Matching is by substring: "display" holds "play". *)
Example classify_inside_a_word :
  elements (categories (analyze_content (Some "New display at the mall"))) =
  ["cultural_event"].
Proof. by vm_compute. Qed.

(** ** Ingestion store *)

Lemma size_add_fresh (a : option string) (X : gset (option string)) :
  a ∉ X -> size ({[a]} ∪ X) = S (size X).
Proof. intros. rewrite size_union by set_solver. by rewrite size_singleton. Qed.

Section StoreFacts.

Implicit Types (c : Collection) (e : Event) (l : option string).

Lemma existsb_has_link l (ds : list Doc) :
  existsb (has_link l) ds = false <->
  l ∉ map (fun d => link_original (fields d)) ds.
Proof.
  induction ds as [|d ds IH]; simpl.
  - split; [intros _; apply not_elem_of_nil | done].
  - rewrite orb_false_iff, IH, not_elem_of_cons. unfold has_link.
    rewrite bool_decide_eq_false. split; intros [H1 H2]; (split; [| done]);
      intros Heq; by apply H1.
Qed.

Lemma find_one_None l (ds : list Doc) :
  find_one l ds = None <-> l ∉ map (fun d => link_original (fields d)) ds.
Proof.
  rewrite <- existsb_has_link. unfold find_one.
  induction ds as [|d ds IH]; simpl; [done |].
  destruct (has_link l d); simpl; [split; done | done].
Qed.

Lemma stored_links_set_failures c fs :
  stored_links (set_failures c fs) = stored_links c.
Proof. done. Qed.

(** A write that the environment fails changes nothing but the schedule. *)
Lemma update_one_failed c l e fs :
  failures c = true :: fs ->
  update_one c l e = (Raise "storage error", set_failures c fs).
Proof. unfold update_one. by intros ->. Qed.

(** A write on a stored link leaves the documents as they are. *)
Lemma update_one_matched c l e :
  head (failures c) <> Some true -> l ∈ stored_links c ->
  update_one c l e =
  (Ok {| matched_count := 1; upserted_id := None |},
   set_failures c (tail (failures c))).
Proof.
  intros Hf Hl. unfold update_one.
  destruct (find_one l (documents c)) eqn:Hfind.
  - by destruct (failures c) as [|[] ?].
  - by apply find_one_None in Hfind.
Qed.

(** A write on a link that is not stored appends the event. *)
Lemma update_one_inserted c e :
  head (failures c) <> Some true -> link_original e ∉ stored_links c ->
  update_one c (link_original e) e =
  (Ok {| matched_count := 0; upserted_id := Some (next_id c) |},
   {| documents := documents c ++ [{| _id := next_id c; fields := e |}];
      next_id := S (next_id c);
      failures := tail (failures c) |}).
Proof.
  intros Hf Hl. unfold update_one, insert_one. simpl.
  pose proof Hl as Hl'. apply find_one_None in Hl as ->.
  apply existsb_has_link in Hl' as ->.
  by destruct (failures c) as [|[] ?].
Qed.

(** The two outcomes of the write [store_events_in_db] issues for [e]. *)
Lemma update_one_step c e :
  (exists r, update_one c (link_original e) e =
             (r, set_failures c (tail (failures c))) /\
             forall res, r = Ok res -> upserted_id res = None) \/
  ((link_original e ∉ stored_links c) /\
   update_one c (link_original e) e =
   (Ok {| matched_count := 0; upserted_id := Some (next_id c) |},
    {| documents := documents c ++ [{| _id := next_id c; fields := e |}];
       next_id := S (next_id c);
       failures := tail (failures c) |})).
Proof.
  destruct (decide (head (failures c) = Some true)) as [Hf | Hf].
  - left. destruct (failures c) as [|[] fs] eqn:Hfs; try done.
    rewrite (update_one_failed c _ e fs Hfs). eexists. split; [done | done].
  - destruct (decide (link_original e ∈ stored_links c)) as [Hl | Hl].
    + left. rewrite update_one_matched by done. eexists. split; [done |].
      by intros res [= <-].
    + right. split; [done |]. by apply update_one_inserted.
Qed.




(** A batch only appends documents: those it counts, each made of an event
    of the batch whose link was not stored. *)
Lemma store_loop_appends events : forall c k,
  exists added,
    documents (snd (store_loop c events k)) = documents c ++ added /\
    fst (store_loop c events k) = k + length added /\
    Forall (fun d => (link_original (fields d) ∉ stored_links c) /\
                     fields d ∈ events) added.
Proof.
  induction events as [|e rest IH]; intros c k; simpl.
  - exists []. by rewrite app_nil_r, Nat.add_0_r.
  - destruct (update_one_step c e) as [(r & -> & Hr) | [Hl ->]].
    + assert (exists k', (k' = k) /\
        match r with
        | Ok result =>
            store_loop (set_failures c (tail (failures c))) rest
              (match upserted_id result with Some _ => S k | None => k end)
        | Raise _ => store_loop (set_failures c (tail (failures c))) rest k
        end = store_loop (set_failures c (tail (failures c))) rest k')
        as (k' & -> & ->).
      { exists k. split; [done |]. destruct r as [res |]; [| done].
        by rewrite (Hr res eq_refl). }
      destruct (IH (set_failures c (tail (failures c))) k)
        as (added & Hdocs & Hcount & Hadded).
      exists added. repeat split; [done | done |].
      eapply Forall_impl; [exact Hadded |]. simpl. intros d [? ?].
      split; [done | by right].
    + simpl.
      set (c' := {| documents := _; next_id := _; failures := _ |}).
      destruct (IH c' (S k)) as (added & Hdocs & Hcount & Hadded).
      exists ({| _id := next_id c; fields := e |} :: added).
      rewrite Hdocs, Hcount. simpl. rewrite <- app_assoc. simpl.
      repeat split; [lia |]. constructor.
      * simpl. split; [done | by left].
      * eapply Forall_impl; [exact Hadded |]. simpl. intros d [Hd ?].
        split; [| by right]. intros Hin. apply Hd.
        unfold stored_links, c'. simpl. rewrite map_app. apply elem_of_app. by left.
Qed.

Lemma store_events_in_db_loop c events :
  store_events_in_db c events = store_loop c events 0.
Proof. by destruct events. Qed.

Lemma drop_tail {A} n (xs : list A) : drop n (tail xs) = drop (S n) xs.
Proof. destruct xs; simpl; [by rewrite drop_nil | done]. Qed.

Lemma no_failure_head c : no_failure c -> head (failures c) <> Some true.
Proof.
  unfold no_failure. destruct (failures c) as [|b fs]; simpl; [done |].
  intros Hf [= ->]. by apply Forall_cons in Hf as [? _].
Qed.

Lemma no_failure_tail c :
  no_failure c -> no_failure (set_failures c (tail (failures c))).
Proof.
  unfold no_failure. simpl. destruct (failures c); simpl; [done |].
  by intros [_ ?]%Forall_cons.
Qed.

Lemma links_number_from n events :
  map (fun d => link_original (fields d)) (number_from n events) =
  map link_original events.
Proof. revert n. induction events as [|e r IH]; intros n; simpl; [done | by rewrite IH]. Qed.

Lemma length_number_from n events : length (number_from n events) = length events.
Proof. revert n. induction events as [|e r IH]; intros n; simpl; [done | by rewrite IH]. Qed.

(** Without storage errors a batch adds exactly [first_new], in order. *)
Lemma store_loop_no_failure events : forall c k,
  no_failure c ->
  store_loop c events k =
  (k + length (first_new (stored_links c) events),
   {| documents :=
        documents c ++ number_from (next_id c) (first_new (stored_links c) events);
      next_id := next_id c + length (first_new (stored_links c) events);
      failures := drop (length events) (failures c) |}).
Proof.
  induction events as [|e rest IH]; intros c k Hc.
  - simpl. rewrite app_nil_r, !Nat.add_0_r. by destruct c.
  - cbn [store_loop first_new].
    pose proof (no_failure_head c Hc) as Hhead.
    case_bool_decide as Hl.
    + rewrite update_one_matched by done.
      rewrite IH by (by apply no_failure_tail).
      rewrite stored_links_set_failures. simpl. by rewrite drop_tail.
    + rewrite update_one_inserted by done. cbn beta iota. cbn [upserted_id].
      set (c' := {| documents := _; next_id := _; failures := _ |}).
      assert (no_failure c') as Hc'.
      { by apply no_failure_tail in Hc. }
      rewrite (IH c' (S k) Hc').
      assert (stored_links c' = stored_links c ++ [link_original e]) as ->.
      { unfold stored_links, c'. simpl. by rewrite map_app. }
      unfold c'. simpl. rewrite <- app_assoc, drop_tail. simpl.
      f_equal; [lia |]. f_equal. lia.
Qed.

(** A batch whose links are all stored changes no document and counts
    nothing, whether or not its writes fail. *)
Lemma store_loop_all_stored events : forall c k,
  (forall e, e ∈ events -> link_original e ∈ stored_links c) ->
  store_loop c events k =
  (k, set_failures c (drop (length events) (failures c))).
Proof.
  induction events as [|e rest IH]; intros c k Hall.
  - simpl. by destruct c.
  - cbn [store_loop].
    destruct (update_one_step c e) as [(r & -> & Hr) | [Hl _]].
    + assert (forall x, x ∈ rest ->
                link_original x ∈ stored_links (set_failures c (tail (failures c))))
        as Hrest.
      { intros x Hx. apply Hall. by right. }
      destruct r as [res | msg].
      * rewrite (Hr res eq_refl), (IH _ k Hrest).
        unfold set_failures. simpl. by rewrite drop_tail.
      * rewrite (IH _ k Hrest). unfold set_failures. simpl. by rewrite drop_tail.
    + exfalso. apply Hl, Hall. by left.
Qed.

(** Every link of the batch is stored or carried by [first_new]. *)
Lemma first_new_covers events : forall seen e,
  e ∈ events ->
  link_original e ∈ seen ++ map link_original (first_new seen events).
Proof.
  induction events as [|a rest IH]; intros seen e He; [by apply elem_of_nil in He |].
  simpl. apply elem_of_cons in He as [-> | He]; case_bool_decide as Ha.
  - apply elem_of_app. by left.
  - simpl. apply elem_of_app. right. by left.
  - by apply IH.
  - simpl. specialize (IH (seen ++ [link_original a]) e He).
    by rewrite <- app_assoc in IH.
Qed.



(** [first_new] has as many events as the batch has links not yet seen. *)
Lemma first_new_length events : forall seen,
  length (first_new seen events) =
  size (distinct_links events ∖ list_to_set seen).
Proof.
  unfold distinct_links.
  induction events as [|a rest IH]; intros seen; simpl.
  - by rewrite difference_disjoint_L, size_empty by apply disjoint_empty_l.
  - case_bool_decide as Ha.
    + rewrite IH. f_equal. apply set_eq. intros x.
      rewrite !elem_of_difference, elem_of_union, elem_of_singleton,
        !elem_of_list_to_set.
      split; [tauto |]. intros [[-> | Hx] Hs]; [done | tauto].
    + simpl. rewrite IH, list_to_set_app_L. simpl. rewrite union_empty_r_L.
      rewrite <- (size_add_fresh (link_original a)).
      * f_equal. apply set_eq. intros x.
        rewrite !elem_of_union, !elem_of_difference, !elem_of_union,
          elem_of_singleton, !elem_of_list_to_set.
        destruct (decide (x = link_original a)) as [-> | Hx]; tauto.
      * rewrite elem_of_difference, elem_of_union, elem_of_singleton. tauto.
Qed.

Lemma update_one_failures c l e :
  failures (snd (update_one c l e)) = tail (failures c).
Proof.
  unfold update_one, insert_one.
  destruct (failures c) as [|[] fs]; simpl; try done;
    (destruct (find_one l (documents c)); [done |]);
    by destruct (existsb _ (documents c)).
Qed.

(** A write looks at the head of the schedule only. *)
Lemma update_one_congr c l e fs' :
  head fs' = head (failures c) ->
  update_one (set_failures c fs') l e =
  (fst (update_one c l e), set_failures (snd (update_one c l e)) (tail fs')).
Proof.
  unfold update_one, insert_one. simpl. intros Hhead.
  destruct (failures c) as [|[] fs], fs' as [|[] fs'']; simpl in *;
    try done;
    (destruct (find_one l (documents c)); [done |]);
    by destruct (existsb _ (documents c)).
Qed.

Lemma head_delete_S {A} n (xs : list A) : head (delete (S n) xs) = head xs.
Proof. by destruct xs. Qed.

Lemma tail_delete_S {A} n (xs : list A) :
  tail (delete (S n) xs) = delete n (tail xs).
Proof. destruct xs; [by destruct n | done]. Qed.

Lemma update_one_links c l e x :
  x ∈ stored_links c -> x ∈ stored_links (snd (update_one c l e)).
Proof.
  unfold stored_links, update_one, insert_one. intros Hx.
  destruct (failures c) as [|[] fs]; simpl; try done;
    (destruct (find_one l (documents c)); [done |]);
    (destruct (existsb _ (documents c)); [done |]); simpl;
    rewrite map_app; apply elem_of_app; by left.
Qed.

(** One step of the loop on both sides of a skipping argument. *)
Lemma store_loop_cons c a rest k :
  store_loop c (a :: rest) k =
  store_loop (snd (update_one c (link_original a) a)) rest
    (match fst (update_one c (link_original a) a) with
     | Ok result => match upserted_id result with Some _ => S k | None => k end
     | Raise _ => k
     end).
Proof.
  simpl. by destruct (update_one c (link_original a) a) as [[res | msg] c'].
Qed.

(** A failed write amounts to the event not being in the batch. *)
Lemma store_loop_skips_failed pre : forall c k e post,
  failures c !! length pre = Some true ->
  store_loop c (pre ++ e :: post) k =
  store_loop (set_failures c (delete (length pre) (failures c))) (pre ++ post) k.
Proof.
  induction pre as [|a pre IH]; intros c k e post Hf.
  - destruct (failures c) as [|b fs] eqn:Hfs; [done |].
    injection Hf as ->. cbn [app store_loop length].
    by rewrite (update_one_failed c _ e fs Hfs).
  - cbn [app length]. rewrite !store_loop_cons.
    rewrite update_one_congr by apply head_delete_S.
    cbn [fst snd]. rewrite tail_delete_S, <- (update_one_failures c (link_original a) a).
    apply IH. rewrite update_one_failures.
    destruct (failures c); [done | exact Hf].
Qed.

(** So does a write on a link that is stored already, whether it fails or
    finds its document. *)
Lemma store_loop_skips_stored pre : forall c k e post,
  link_original e ∈ stored_links c ->
  store_loop c (pre ++ e :: post) k =
  store_loop (set_failures c (delete (length pre) (failures c))) (pre ++ post) k.
Proof.
  induction pre as [|a pre IH]; intros c k e post Hl.
  - cbn [app length]. rewrite store_loop_cons.
    destruct (update_one_step c e) as [(r & -> & Hr) | [Hnew _]]; [| done].
    cbn [fst snd].
    replace (delete 0 (failures c)) with (tail (failures c))
      by (by destruct (failures c)).
    destruct r as [res | msg]; [by rewrite (Hr res eq_refl) | done].
  - cbn [app length]. rewrite !store_loop_cons.
    rewrite update_one_congr by apply head_delete_S.
    cbn [fst snd]. rewrite tail_delete_S, <- (update_one_failures c (link_original a) a).
    apply IH. by apply update_one_links.
Qed.



End StoreFacts.

(** *** The claims on the store *)

(** C1, as stated, fails on a batch that repeats a link: two feeds carry the
    same article, both links are absent from the empty store and no write
    fails, yet the first call counts one insertion for two events. *)
Lemma upsert_count_counterexample :
  no_failure empty_collection /\
  (forall e, e ∈ repeated_batch ->
             link_original e ∉ stored_links empty_collection) /\
  length repeated_batch = 2 /\
  fst (store_events_in_db empty_collection repeated_batch) = 1 /\
  fst (store_events_in_db empty_collection repeated_batch)
    <> length repeated_batch.
Proof.
  split; [apply Forall_nil_2 |].
  split; [intros e _; apply not_elem_of_nil |].
  by vm_compute.
Qed.

(** C1, amended: for a batch whose links are all absent from the store,
    and with no storage error, the first call returns the number of distinct
    links of the batch (the number of its events when no link is repeated),
    the second call returns 0 and changes no document, and the store has
    grown by exactly that number of documents. *)
Theorem upsert_twice (c : Collection) (events : list Event) :
  no_failure c ->
  (forall e, e ∈ events -> link_original e ∉ stored_links c) ->
  let first := store_events_in_db c events in
  let second := store_events_in_db (snd first) events in
  fst first = size (distinct_links events) /\
  fst second = 0 /\
  documents (snd second) = documents (snd first) /\
  length (documents (snd second)) =
    length (documents c) + size (distinct_links events) /\
  (NoDup (map link_original events) ->
   size (distinct_links events) = length events).
Proof.
  intros Hc Hnew first second. subst first second.
  rewrite !store_events_in_db_loop, (store_loop_no_failure events c 0 Hc).
  cbn [fst snd].
  set (added := first_new (stored_links c) events).
  assert (length added = size (distinct_links events)) as Hsize.
  { unfold added. rewrite first_new_length. f_equal.
    apply difference_disjoint_L. intros l Hl Hs.
    apply elem_of_list_to_set in Hs. unfold distinct_links in Hl.
    apply elem_of_list_to_set, list_elem_of_fmap in Hl as (e & -> & He).
    by apply (Hnew e). }
  rewrite store_loop_all_stored.
  - cbn [fst snd set_failures documents].
    rewrite length_app, length_number_from, Hsize.
    repeat split; try done.
    intros Hnodup. unfold distinct_links.
    by rewrite size_list_to_set, length_map.
  - intros e He. unfold stored_links. cbn [documents].
    rewrite map_app, links_number_from. by apply first_new_covers.
Qed.

Lemma upsert_twice_witness :
  let first := store_events_in_db empty_collection distinct_batch in
  let second := store_events_in_db (snd first) distinct_batch in
  fst first = size (distinct_links distinct_batch) /\
  fst second = 0 /\
  documents (snd second) = documents (snd first) /\
  length (documents (snd second)) =
    length (documents empty_collection) + size (distinct_links distinct_batch) /\
  (NoDup (map link_original distinct_batch) ->
   size (distinct_links distinct_batch) = length distinct_batch).
Proof.
  apply (upsert_twice empty_collection distinct_batch).
  - apply Forall_nil_2.
  - intros e _. apply not_elem_of_nil.
Defined.







(** C5: a write that raises is contained. The batch goes on as if the
    failed event had not been in it: the count and the store are those of
    the batch without that event, run against the schedule without that
    error. In a batch of three events whose second write raises, the first
    and the third are stored and the count is 2. *)
Theorem storage_failure_contained :
  (forall c pre e post,
      failures c !! length pre = Some true ->
      store_events_in_db c (pre ++ e :: post) =
      store_events_in_db
        (set_failures c (delete (length pre) (failures c))) (pre ++ post)) /\
  (forall c e1 e2 e3 fs,
      failures c = false :: true :: false :: fs ->
      link_original e1 ∉ stored_links c ->
      link_original e3 ∉ stored_links c ->
      link_original e1 <> link_original e3 ->
      store_events_in_db c [e1; e2; e3] =
      (2, {| documents :=
               documents c ++ [ {| _id := next_id c; fields := e1 |};
                                {| _id := S (next_id c); fields := e3 |} ];
             next_id := S (S (next_id c));
             failures := fs |})).
Proof.
  split.
  - intros c pre e post Hf.
    rewrite !store_events_in_db_loop. by apply store_loop_skips_failed.
  - intros c e1 e2 e3 fs Hf H1 H3 Hne.
    rewrite store_events_in_db_loop. cbn [store_loop].
    rewrite (update_one_inserted c e1) by (by rewrite ?Hf).
    cbn beta iota. cbn [upserted_id]. rewrite Hf. cbn [tail].
    set (c1 := {| documents := _; next_id := _; failures := _ |}).
    rewrite (update_one_failed c1 _ e2 (false :: fs) eq_refl).
    cbn beta iota.
    rewrite (update_one_inserted (set_failures c1 (false :: fs)) e3).
    + unfold c1. simpl. by rewrite <- app_assoc.
    + done.
    + unfold stored_links, c1. cbn [documents set_failures].
      rewrite map_app. simpl. rewrite elem_of_app, list_elem_of_singleton.
      intros [? | ?]; [by apply H3 | by apply Hne].
Qed.

Lemma storage_failure_contained_witness :
  store_events_in_db (set_failures empty_collection [false; true; false])
    [article_toi; article_mirror; article_hindu] =
  (2, {| documents := [ {| _id := 0; fields := article_toi |};
                        {| _id := 1; fields := article_hindu |} ];
         next_id := 2;
         failures := [] |}).
Proof.
  apply (proj2 storage_failure_contained
           (set_failures empty_collection [false; true; false])
           article_toi article_mirror article_hindu []).
  - reflexivity.
  - apply not_elem_of_nil.
  - apply not_elem_of_nil.
  - by vm_compute.
Defined.

(** C7: an event whose link is stored already is a no-op. A batch only
    appends documents, as many as it counts, each under a link that was not
    stored: every document stored before is still there, unchanged and in
    place. And an event whose link has a stored document can be dropped
    from the batch without changing the count or the store, whether its
    write fails or finds the document. *)
Theorem duplicate_upsert_noop :
  (forall c events,
      exists added,
        documents (snd (store_events_in_db c events)) = documents c ++ added /\
        fst (store_events_in_db c events) = length added /\
        Forall (fun d => link_original (fields d) ∉ stored_links c) added) /\
  (forall c pre e post,
      link_original e ∈ stored_links c ->
      store_events_in_db c (pre ++ e :: post) =
      store_events_in_db
        (set_failures c (delete (length pre) (failures c))) (pre ++ post)) /\
  (forall c e,
      link_original e ∈ stored_links c ->
      store_events_in_db c [e] = (0, set_failures c (tail (failures c)))).
Proof.
  split; [| split].
  - intros c events. rewrite store_events_in_db_loop.
    destruct (store_loop_appends events c 0) as (added & Hdocs & Hcount & Hadded).
    exists added. repeat split; [done | done |].
    eapply Forall_impl; [exact Hadded |]. by intros d [? _].
  - intros c pre e post Hl.
    rewrite !store_events_in_db_loop. by apply store_loop_skips_stored.
  - intros c e Hl. rewrite store_events_in_db_loop, store_loop_all_stored.
    + simpl. by destruct (failures c).
    + by intros x ->%list_elem_of_singleton.
Qed.

Lemma duplicate_upsert_noop_witness :
  store_events_in_db (snd (store_events_in_db empty_collection [article_toi]))
    [article_mirror] =
  (0, snd (store_events_in_db empty_collection [article_toi])).
Proof.
  apply (proj2 (proj2 duplicate_upsert_noop)
           (snd (store_events_in_db empty_collection [article_toi]))
           article_mirror).
  by vm_compute; left.
Defined.

(** The stored document keeps the first scrape: a later event under the
    same link, here from another feed, does not replace any field. *)
Example later_scrape_does_not_update :
  map fields
    (documents (snd (store_events_in_db empty_collection repeated_batch))) =
  [article_toi].
Proof. by vm_compute. Qed.

(** ** Event normaliser *)

Section NormalizerFacts.

Variable parse : string -> exc (list Entry.t).
Variable mktime : struct_time -> exc Z.
Variable utcnow : nat -> Z.
Variable representable : Z -> bool.

(** Where the events of a feed come from: each one was built from an entry
    of the feed and passed the test on its link. *)
Lemma rss_entries_events source entries : forall tick all_events e,
  e ∈ fst (rss_entries mktime utcnow source entries tick all_events) ->
  e ∈ all_events \/
  exists entry t,
    entry ∈ entries /\ rss_event mktime utcnow source entry t = Ok e /\
    PyStr.truthy (link_original e) = true.
Proof.
  induction entries as [|entry rest IH]; intros tick all_events e He;
    simpl in He; [by left |].
  destruct (rss_event mktime utcnow source entry tick) as [event | msg] eqn:Hev;
    [| by left].
  apply IH in He as [He | (entry' & t & Hin & Hev' & Hlink)].
  - destruct (PyStr.truthy (link_original event)) eqn:Hlink; [| by left].
    apply elem_of_app in He as [He | ->%list_elem_of_singleton]; [by left |].
    right. exists entry, tick. split; [by left | done].
  - right. exists entry', t. split; [by right | done].
Qed.

Lemma rss_feeds_events feeds : forall tick all_events e,
  e ∈ fst (rss_feeds parse mktime utcnow feeds tick all_events) ->
  e ∈ all_events \/
  exists source entry t,
    rss_event mktime utcnow source entry t = Ok e /\
    PyStr.truthy (link_original e) = true.
Proof.
  induction feeds as [|[source url] rest IH]; intros tick all_events e He;
    simpl in He; [by left |].
  destruct (parse url) as [entries | msg]; [| by apply IH in He].
  destruct (rss_entries mktime utcnow source entries tick all_events)
    as [all_events' tick'] eqn:Hentries.
  apply IH in He as [He | He]; [| by right].
  replace all_events' with
    (fst (rss_entries mktime utcnow source entries tick all_events)) in He
    by (by rewrite Hentries).
  apply rss_entries_events in He as [He | (entry & t & _ & Hev & Hlink)];
    [by left | right; eauto].
Qed.

Lemma fetch_rss_data_events e :
  e ∈ fetch_rss_data parse mktime utcnow ->
  exists source entry t,
    rss_event mktime utcnow source entry t = Ok e /\
    PyStr.truthy (link_original e) = true.
Proof.
  intros He. apply rss_feeds_events in He as [He | He]; [| done].
  by apply elem_of_nil in He.
Qed.

Lemma reddit_posts_events sub posts : forall tick all_events e,
  e ∈ reddit_posts utcnow representable sub posts tick all_events ->
  e ∈ all_events \/
  exists submission t,
    Ok submission ∈ posts /\ e = reddit_event utcnow sub submission t.
Proof.
  induction posts as [|[submission | msg] rest IH]; intros tick all_events e He;
    simpl in He; [by left | | by left].
  destruct (representable (Submission.created_utc submission)); [| by left].
  apply IH in He as [He | (submission' & t & Hin & ->)].
  - apply elem_of_app in He as [He | ->%list_elem_of_singleton]; [by left |].
    right. exists submission, tick. split; [by left | done].
  - right. exists submission', t. split; [by right | done].
Qed.

Lemma fetch_reddit_data_events reddit_client e :
  e ∈ fetch_reddit_data utcnow representable reddit_client ->
  exists sub submission t, e = reddit_event utcnow sub submission t.
Proof.
  destruct reddit_client as [client |]; simpl; intros He;
    [| by apply elem_of_nil in He].
  apply reddit_posts_events in He as [He | (submission & t & _ & ->)];
    [by apply elem_of_nil in He | eauto].
Qed.

Lemma rss_event_categories source entry tick event :
  rss_event mktime utcnow source entry tick = Ok event ->
  analysis_categories (analysis event) =
  categories (analyze_content
    (Some (default "" (Entry.title entry) +:+ ". " +:+
           default "" (Entry.summary entry)))).
Proof.
  unfold rss_event.
  destruct (match Entry.published_parsed entry with
            | Some st => mktime st
            | None => Ok (utcnow tick)
            end); [| done].
  by intros [= <-].
Qed.

Lemma rss_event_link source entry tick event :
  rss_event mktime utcnow source entry tick = Ok event ->
  link_original event = Entry.link entry.
Proof.
  unfold rss_event.
  destruct (match Entry.published_parsed entry with
            | Some st => mktime st
            | None => Ok (utcnow tick)
            end); [| done].
  by intros [= <-].
Qed.

End NormalizerFacts.

Lemma truthy_spec o :
  PyStr.truthy o = true <-> exists l, o = Some l /\ l <> "".
Proof.
  destruct o as [[|a l]|]; simpl; split; try done.
  - by intros (l & [= <-] & ?).
  - intros _. by eexists.
  - by intros (l & ? & _).
Qed.

(** When nothing matches, the classifier answers exactly ["general"]. *)
Lemma categories_general text :
  (forall c, ~ category_matches KEYWORD_CATEGORIES text c) ->
  categories (analyze_content (Some text)) = {[ "general" ]}.
Proof.
  intros Hno. apply set_eq. intros c. unfold analyze_content.
  rewrite (analyze_categories_with _ BANGALORE_LOCATIONS
             KEYWORD_CATEGORIES_plain (Some text) c), elem_of_singleton.
  simpl. split; [intros [Hm | [_ ->]]; [by apply Hno in Hm | done] |].
  intros ->. by right.
Qed.

Lemma store_events_in_db_appends c events :
  exists added,
    documents (snd (store_events_in_db c events)) = documents c ++ added /\
    Forall (fun d => fields d ∈ events) added.
Proof.
  rewrite store_events_in_db_loop.
  destruct (store_loop_appends events c 0) as (added & Hdocs & _ & Hadded).
  exists added. split; [done |].
  eapply Forall_impl; [exact Hadded |]. by intros d [_ ?].
Qed.

(** The feed path on the sample parser: the entry without a link is
    dropped, the other one is kept, the unreachable feeds give nothing. *)
Example fetch_rss_sample :
  map (fun e => (source_name e, link_original e, content_raw e))
    (fetch_rss_data sample_parse (fun _ => Raise "") (fun _ => 0%Z)) =
  [("TimesOfIndia", Some "https://example.org/bengaluru/weather", "Weather update")].
Proof. by vm_compute. Qed.

(** The forum path on the sample listing. *)
Example fetch_reddit_sample :
  map (fun e => (event_id e, media_urls e, elements (analysis_categories (analysis e))))
    (fetch_reddit_data (fun _ => 0%Z) (fun _ => true) (Some sample_client)) =
  [ ("reddit_1abcde", Some [], ["traffic"]);
    ("reddit_1abcdf", Some [], ["general"]);
    ("reddit_1abcdg", Some ["https://i.imgur.com/sunset.jpg"],
       elements ({[ "general"; "Photography" ]} : gset string)) ].
Proof. by vm_compute. Qed.

(** *** The claims on the normaliser *)

(** C3, as stated, fails on the feed path of
    [master_scraper_v1_working.py], which has no classifier: an entry
    without tags gives an event whose categories are empty, where the claim
    wants them to be ["general"]. *)
Lemma untagged_entry_counterexample :
  Entry.tags untagged_entry = [] /\
  V1.rss_event failing_mktime (fun _ => 0%Z) "TimesOfIndia" untagged_entry 0 =
  Ok {| V1.event_id := "rss_https://example.org/bengaluru/weather";
        V1.source_type := RSS;
        V1.source_name := "TimesOfIndia";
        V1.content_raw := "Weather update";
        V1.content_summary := "No Summary";
        V1.link_original := Some "https://example.org/bengaluru/weather";
        V1.timestamp_published := 0;
        V1.timestamp_scraped := 0;
        V1.location := {| V1.text_raw := None; V1.geo_coordinates := None |};
        V1.media_urls := [];
        V1.categories := [] |} /\
  map V1.categories
    (V1.fetch_rss_data sample_parse failing_mktime (fun _ => 0%Z)) = [[]].
Proof. split; [reflexivity |]. split; reflexivity. Qed.

(** C3, amended: every event [fetch_rss_data] and [fetch_reddit_data] of
    [master_scraper.py] produce has a non-empty set of categories; when no
    trigger phrase occurs in the analysed text, and, on the forum path, the
    post has no flair, the set is exactly ["general"]. In
    [master_scraper_v1_working.py] the categories of an event are the tags
    the source provides and nothing else: the terms of the entry's tags on
    the feed path, the flair of the post on the forum path, and so none at
    all when the source provides none. *)
Theorem categories_never_empty :
  (forall parse mktime utcnow e,
      e ∈ fetch_rss_data parse mktime utcnow ->
      analysis_categories (analysis e) <> ∅) /\
  (forall utcnow representable reddit_client e,
      e ∈ fetch_reddit_data utcnow representable reddit_client ->
      analysis_categories (analysis e) <> ∅) /\
  (forall mktime utcnow source entry tick event,
      rss_event mktime utcnow source entry tick = Ok event ->
      (forall c, ~ category_matches KEYWORD_CATEGORIES
                     (default "" (Entry.title entry) +:+ ". " +:+
                      default "" (Entry.summary entry)) c) ->
      analysis_categories (analysis event) = {[ "general" ]}) /\
  (forall utcnow sub submission tick,
      (forall c, ~ category_matches KEYWORD_CATEGORIES
                     (Submission.title submission +:+ ". " +:+
                      Submission.selftext submission) c) ->
      PyStr.truthy (Submission.link_flair_text submission) = false ->
      analysis_categories (analysis (reddit_event utcnow sub submission tick)) =
      {[ "general" ]}) /\
  (forall mktime utcnow source entry tick event,
      V1.rss_event mktime utcnow source entry tick = Ok event ->
      V1.categories event = Entry.tags entry) /\
  (forall utcnow sub submission tick,
      V1.categories (V1.reddit_event utcnow sub submission tick) =
      match Submission.link_flair_text submission with
      | Some flair => if bool_decide (flair = "") then [] else [flair]
      | None => []
      end).
Proof.
  split; [| split; [| split; [| split; [| split]]]].
  - intros parse mktime utcnow e He.
    apply fetch_rss_data_events in He as (source & entry & t & Hev & _).
    rewrite (rss_event_categories _ _ _ _ _ _ Hev).
    apply analyze_categories_nonempty.
  - intros utcnow representable reddit_client e He.
    apply fetch_reddit_data_events in He as (sub & submission & t & ->).
    simpl. intros Hempty. apply empty_union_L in Hempty as [Hempty _].
    by apply analyze_categories_nonempty in Hempty.
  - intros mktime utcnow source entry tick event Hev Hno.
    rewrite (rss_event_categories _ _ _ _ _ _ Hev). by apply categories_general.
  - intros utcnow sub submission tick Hno Hflair. simpl.
    rewrite categories_general by done.
    unfold flair_list. destruct (Submission.link_flair_text submission) as [flair |].
    + rewrite Hflair. simpl. by rewrite union_empty_r_L.
    + simpl. by rewrite union_empty_r_L.
  - intros mktime utcnow source entry tick event. unfold V1.rss_event.
    destruct (match Entry.published_parsed entry with
              | Some st => mktime st
              | None => Ok (utcnow tick)
              end); [| done].
    by intros [= <-].
  - intros utcnow sub submission tick. cbn [V1.reddit_event V1.categories].
    unfold flair_list.
    destruct (Submission.link_flair_text submission) as [[|a flair] |]; done.
Qed.

Lemma categories_never_empty_witness :
  analysis_categories
    (analysis (reddit_event (fun _ => 0%Z) sample_subreddit self_post 0)) =
  {[ "general" ]}.
Proof.
  apply (proj1 (proj2 (proj2 (proj2 categories_never_empty)))).
  - intros c Hm.
    apply (categories_found_matches _ KEYWORD_CATEGORIES_plain) in Hm.
    replace (categories_found KEYWORD_CATEGORIES _) with (∅ : gset string) in Hm
      by (by vm_compute).
    by apply not_elem_of_empty in Hm.
  - reflexivity.
Defined.

(** C8: every event the normaliser produces has a non-empty
    [link_original]: the feed path drops an entry whose link is missing or
    empty, the forum path builds the link from the permalink; so no document
    a scraping cycle stores is without one. *)
Theorem missing_link_rejected :
  (forall parse mktime utcnow e,
      e ∈ fetch_rss_data parse mktime utcnow ->
      exists l, link_original e = Some l /\ l <> "") /\
  (forall utcnow representable reddit_client e,
      e ∈ fetch_reddit_data utcnow representable reddit_client ->
      exists l, link_original e = Some l /\ l <> "") /\
  (forall mktime utcnow source entry tick all_events,
      PyStr.truthy (Entry.link entry) = false ->
      fst (rss_entries mktime utcnow source [entry] tick all_events) =
      all_events) /\
  (forall parse mktime utcnow representable collection client result d,
      main parse mktime utcnow representable (Some collection) (Some client) =
      Some result ->
      d ∈ documents (snd result) ->
      d ∈ documents collection \/
      exists l, link_original (fields d) = Some l /\ l <> "").
Proof.
  assert (forall parse mktime utcnow e,
             e ∈ fetch_rss_data parse mktime utcnow ->
             exists l, link_original e = Some l /\ l <> "") as Hrss.
  { intros parse mktime utcnow e He.
    apply fetch_rss_data_events in He as (source & entry & t & _ & Hlink).
    by apply truthy_spec. }
  assert (forall utcnow representable reddit_client e,
             e ∈ fetch_reddit_data utcnow representable reddit_client ->
             exists l, link_original e = Some l /\ l <> "") as Hreddit.
  { intros utcnow representable reddit_client e He.
    apply fetch_reddit_data_events in He as (sub & submission & t & ->).
    eexists. split; [reflexivity | done]. }
  split; [exact Hrss |]. split; [exact Hreddit |]. split.
  - intros mktime utcnow source entry tick all_events Hlink. simpl.
    destruct (rss_event mktime utcnow source entry tick) as [event |] eqn:Hev;
      [| done].
    by rewrite (rss_event_link _ _ _ _ _ _ Hev), Hlink.
  - intros parse mktime utcnow representable collection client result d Hmain Hd.
    unfold main in Hmain.
    pose proof (Hrss parse mktime utcnow) as Hrss'. unfold fetch_rss_data in Hrss'.
    destruct (rss_feeds parse mktime utcnow RSS_FEEDS 0 []) as [rss_events ticks].
    simpl in Hrss'.
    destruct (store_events_in_db_appends collection rss_events)
      as (added1 & Hdocs1 & Hadded1).
    destruct (store_events_in_db collection rss_events) as [rss_added collection1].
    destruct (store_events_in_db_appends collection1
                (fetch_reddit_data (fun n => utcnow (ticks + n)) representable (Some client)))
      as (added2 & Hdocs2 & Hadded2).
    destruct (store_events_in_db collection1 _) as [reddit_added collection2].
    injection Hmain as <-. simpl in *.
    rewrite Hdocs2, Hdocs1 in Hd.
    apply elem_of_app in Hd as [Hd | Hd];
      [apply elem_of_app in Hd as [Hd | Hd]; [by left | right] | right].
    + rewrite Forall_forall in Hadded1. by apply Hrss', Hadded1.
    + rewrite Forall_forall in Hadded2.
      apply (Hreddit (fun n => utcnow (ticks + n)) representable (Some client)),
        Hadded2, Hd.
Qed.

Lemma missing_link_rejected_witness :
  fst (rss_entries (fun _ => Raise "") (fun _ => 0%Z) "TheHindu"
         [linkless_entry] 0 []) = [].
Proof.
  apply (proj1 (proj2 (proj2 missing_link_rejected))). reflexivity.
Defined.

(** C6, as stated, fails on a link post whose target is on another host
    but holds the text "reddit.com": the target does not point into the
    forum's domain, and yet the event has no media URL. *)
Lemma forum_domain_counterexample :
  Submission.is_self link_post = false /\
  url_host (Submission.url link_post) = "example.com" /\
  in_forum_domain (Submission.url link_post) = false /\
  media_urls (reddit_event (fun _ => 0%Z) sample_subreddit link_post 0) = Some [] /\
  media_urls (reddit_event (fun _ => 0%Z) sample_subreddit link_post 0)
    <> Some [Submission.url link_post].
Proof. by vm_compute. Qed.

(** C6, amended: the forum path sets [media_urls] to the one-element list
    of the post's URL exactly when the post is not a self post and the
    string "reddit.com" does not occur in that URL, and to the empty list
    otherwise; a self post always has empty [media_urls]. *)
Theorem forum_media_urls (utcnow : nat -> Z) (sub : Subreddit)
    (submission : Submission.t) (tick : nat) :
  let event := reddit_event utcnow sub submission tick in
  (Submission.is_self submission = false /\
   ~ occurs "reddit.com" (Submission.url submission) ->
   media_urls event = Some [Submission.url submission]) /\
  (Submission.is_self submission = true \/
   occurs "reddit.com" (Submission.url submission) ->
   media_urls event = Some []) /\
  (Submission.is_self submission = true -> media_urls event = Some []).
Proof.
  simpl. unfold reddit_media_urls.
  destruct (PyStr.contains "reddit.com" (Submission.url submission)) eqn:Hc.
  - apply contains_spec in Hc.
    destruct (Submission.is_self submission); simpl; repeat split; try done;
      intros [_ Hn]; by destruct Hn.
  - assert (~ occurs "reddit.com" (Submission.url submission)) as Hno.
    { intros Ho%contains_spec. congruence. }
    destruct (Submission.is_self submission); simpl; repeat split; try done.
    + by intros [? _].
    + by intros [? | ?].
Qed.

Lemma forum_media_urls_witness :
  media_urls (reddit_event (fun _ => 0%Z) sample_subreddit self_post 0) = Some [].
Proof.
  apply (proj2 (proj2 (forum_media_urls (fun _ => 0%Z) sample_subreddit
                         self_post 0))).
  reflexivity.
Defined.

(** C10: the test on the post's URL is a plain substring check. For a post
    that is not a self post, [media_urls] is empty as soon as "reddit.com"
    occurs anywhere in the URL, in both versions of the normaliser. *)
Theorem forum_domain_is_substring (utcnow : nat -> Z) (sub : Subreddit)
    (submission : Submission.t) (tick : nat) :
  Submission.is_self submission = false ->
  occurs "reddit.com" (Submission.url submission) ->
  media_urls (reddit_event utcnow sub submission tick) = Some [] /\
  V1.media_urls (V1.reddit_event utcnow sub submission tick) = [].
Proof.
  intros Hself Ho%contains_spec. simpl. unfold reddit_media_urls.
  by rewrite Hself, Ho.
Qed.

Lemma forum_domain_is_substring_witness :
  in_forum_domain (Submission.url link_post) = false /\
  media_urls (reddit_event (fun _ => 0%Z) sample_subreddit link_post 0) = Some [] /\
  V1.media_urls (V1.reddit_event (fun _ => 0%Z) sample_subreddit link_post 0) = [].
Proof.
  split; [reflexivity |].
  apply (forum_domain_is_substring (fun _ => 0%Z) sample_subreddit link_post 0).
  - reflexivity.
  - by exists "https://example.com/mirror/", "/flyover.png".
Defined.

(** * Further properties *)

(** ** Classifier *)

(** What [analyze_content] answers on a text that is present, in terms of
    its two loops. *)
Lemma analyze_locations_found t :
  locations (analyze_content (Some t)) =
  locations_found BANGALORE_LOCATIONS (PyStr.lower t).
Proof. by destruct t. Qed.

Lemma analyze_categories_found t c :
  c <> "general" ->
  c ∈ categories (analyze_content (Some t)) <->
  c ∈ categories_found KEYWORD_CATEGORIES (PyStr.lower t).
Proof.
  intros Hc. destruct t as [|a t].
  - change (c ∈ ({[ "general" ]} : gset string) <-> c ∈ (∅ : gset string)).
    rewrite elem_of_singleton. split; [done | by intros ?%not_elem_of_empty].
  - set (found := categories_found KEYWORD_CATEGORIES (PyStr.lower (String a t))).
    change (c ∈ (if bool_decide (found = ∅) then {[ "general" ]} else found)
            <-> c ∈ found).
    case_bool_decide as Hcats; [| done].
    rewrite Hcats, elem_of_singleton.
    split; [done | by intros ?%not_elem_of_empty].
Qed.

(** X1: text around a text never takes a tag away. Every category other
    than ["general"], and every location, found in a text is found in any
    text that contains it. *)
Theorem classification_grows (pre t post : string) :
  (forall c,
      c <> "general" ->
      c ∈ categories (analyze_content (Some t)) ->
      c ∈ categories (analyze_content (Some (pre +:+ t +:+ post)))) /\
  locations (analyze_content (Some t)) ⊆
  locations (analyze_content (Some (pre +:+ t +:+ post))).
Proof.
  split.
  - intros c Hc Hin. unfold analyze_content in *.
    apply (analyze_categories_with _ _ KEYWORD_CATEGORIES_plain) in Hin.
    apply (analyze_categories_with _ _ KEYWORD_CATEGORIES_plain).
    destruct Hin as [(kws & k & Hin & Hk & Ho) | [_ ?]]; [| done].
    left. exists kws, k. repeat split; [done | done |].
    by apply occurs_ci_grows.
  - intros l Hin. unfold analyze_content in *.
    apply (analyze_locations_with _ _ BANGALORE_LOCATIONS_plain) in Hin.
    apply (analyze_locations_with _ _ BANGALORE_LOCATIONS_plain).
    destruct Hin as (name & Hin & Ho & ->). exists name.
    repeat split; [done |]. by apply occurs_ci_grows.
Qed.

Lemma classification_grows_witness :
  "traffic" ∈ categories
    (analyze_content (Some ("Update: " +:+ "traffic on ORR" +:+ " eases"))).
Proof.
  apply (proj1 (classification_grows "Update: " "traffic on ORR" " eases")).
  - done.
  - replace (categories (analyze_content (Some "traffic on ORR")))
      with ({[ "traffic" ]} : gset string) by (by vm_compute).
    by apply elem_of_singleton.
Defined.

(** X2: ["general"] stands alone. It is returned only when it is the whole
    answer, and every category returned is ["general"] or a name of the
    keyword table. *)
Theorem general_is_exclusive (text : option string) :
  ("general" ∈ categories (analyze_content text) <->
   categories (analyze_content text) = {[ "general" ]}) /\
  (forall c,
      c ∈ categories (analyze_content text) ->
      c ∈ "general" :: map fst KEYWORD_CATEGORIES).
Proof.
  assert (forall c, category_matches KEYWORD_CATEGORIES (default "" text) c ->
                    c ∈ map fst KEYWORD_CATEGORIES) as Hkey.
  { intros c (kws & k & Hin & _). apply list_elem_of_fmap. by exists (c, kws). }
  assert ("general" ∉ map fst KEYWORD_CATEGORIES) as Hgen.
  { cbn. rewrite !not_elem_of_cons. repeat split; try done. apply not_elem_of_nil. }
  split.
  - split; [| intros ->; by apply elem_of_singleton].
    intros Hin. apply set_eq. intros c. rewrite elem_of_singleton.
    unfold analyze_content in *.
    apply (analyze_categories_with _ _ KEYWORD_CATEGORIES_plain) in Hin.
    rewrite (analyze_categories_with _ BANGALORE_LOCATIONS
               KEYWORD_CATEGORIES_plain text c).
    destruct Hin as [Hm | [Hno _]]; [by apply Hkey in Hm |].
    split; [intros [Hm | [_ ?]]; [by apply Hno in Hm | done] |].
    intros ->. by right.
  - intros c Hin. unfold analyze_content in Hin.
    apply (analyze_categories_with _ _ KEYWORD_CATEGORIES_plain) in Hin.
    destruct Hin as [Hm | [_ ->]]; [right; by apply Hkey | by left].
Qed.

(** Title-casing a configured name only changes letter case. *)
Lemma lower_title_locations :
  Forall (fun name => PyStr.lower (PyStr.title name) = name) BANGALORE_LOCATIONS.
Proof.
  unfold BANGALORE_LOCATIONS.
  repeat (apply Forall_cons_2; [reflexivity |]). apply Forall_nil_2.
Qed.

(** X3: a location tag leads back to its name. Lower-casing a returned
    location gives a name of [BANGALORE_LOCATIONS] that occurs in the text,
    and title-casing that name gives the tag again. *)
Theorem location_tag_inverts (text : option string) (l : string) :
  l ∈ locations (analyze_content text) ->
  PyStr.lower l ∈ BANGALORE_LOCATIONS /\
  occurs_ci (PyStr.lower l) (default "" text) /\
  PyStr.title (PyStr.lower l) = l.
Proof.
  intros Hin. unfold analyze_content in Hin.
  apply (analyze_locations_with _ _ BANGALORE_LOCATIONS_plain) in Hin
    as (name & Hin & Ho & ->).
  pose proof lower_title_locations as Hlow.
  rewrite Forall_forall in Hlow. by rewrite (Hlow _ Hin).
Qed.

Lemma location_tag_inverts_witness :
  PyStr.lower "Silk Board" ∈ BANGALORE_LOCATIONS /\
  occurs_ci (PyStr.lower "Silk Board")
    (default "" (Some "Heavy traffic jam near Silk Board")) /\
  PyStr.title (PyStr.lower "Silk Board") = "Silk Board".
Proof.
  apply (location_tag_inverts (Some "Heavy traffic jam near Silk Board")).
  replace (locations (analyze_content (Some "Heavy traffic jam near Silk Board")))
    with ({[ "Silk Board" ]} : gset string) by (by vm_compute).
  by apply elem_of_singleton.
Defined.

(** *** The separator between title and body *)

Lemma contains_empty s : PyStr.contains "" s = true.
Proof. by destruct s. Qed.

Lemma startswith_app_lacks c k : forall a b,
  lacks c k = true ->
  PyStr.startswith k (a +:+ String c b) = true -> PyStr.startswith k a = true.
Proof.
  induction k as [|y k IH]; intros a b Hk Hs; [by destruct a |].
  simpl in Hk. apply andb_true_iff in Hk as [Hy Hk].
  apply negb_true_iff, bool_decide_eq_false in Hy.
  destruct a as [|x a]; simpl in *.
  - apply andb_true_iff in Hs as [Hs _]. by apply bool_decide_eq_true in Hs.
  - apply andb_true_iff in Hs as [Hx Hs]. rewrite Hx. simpl. by apply (IH a b).
Qed.

Lemma contains_app_l k a b :
  PyStr.contains k a = true -> PyStr.contains k (a +:+ b) = true.
Proof.
  rewrite !contains_spec. intros (pre & post & ->).
  exists pre, (post +:+ b). by rewrite !append_assoc_s.
Qed.

Lemma contains_app_r k a b :
  PyStr.contains k b = true -> PyStr.contains k (a +:+ b) = true.
Proof.
  rewrite !contains_spec. intros (pre & post & ->).
  exists (a +:+ pre), post. by rewrite !append_assoc_s.
Qed.

(** A phrase without the character [c] lies on one side of it. *)
Lemma contains_app_lacks c k a b :
  lacks c k = true ->
  PyStr.contains k (a +:+ String c b) = true <->
  PyStr.contains k a = true \/ PyStr.contains k b = true.
Proof.
  intros Hk. split.
  - induction a as [|x a IH].
    + change ("" +:+ String c b) with (String c b). cbn [PyStr.contains].
      intros [Hs | Hb]%orb_true_iff; [| by right].
      left. destruct k as [|y k]; [done |]. simpl in Hk, Hs.
      apply andb_true_iff in Hk as [Hy _], Hs as [Hs _].
      apply negb_true_iff, bool_decide_eq_false in Hy.
      by apply bool_decide_eq_true in Hs.
    + rewrite append_cons. cbn [PyStr.contains]. intros [Hs | Hc]%orb_true_iff.
      * left. apply orb_true_iff. left.
        by apply (startswith_app_lacks c k (String x a) b).
      * destruct (IH Hc) as [Ha | Hb]; [left | by right].
        apply orb_true_iff. by right.
  - intros [Ha | Hb]; [by apply contains_app_l |].
    apply contains_app_r. cbn [PyStr.contains]. apply orb_true_iff. by right.
Qed.

Lemma contains_separator k a b :
  separable k ->
  PyStr.contains k (a +:+ ". " +:+ b) = true <->
  PyStr.contains k a = true \/ PyStr.contains k b = true.
Proof.
  intros [Hdot Hsp]. change (". " +:+ b) with (String "." (String " " b)).
  rewrite (contains_app_lacks "." k a (String " " b) Hdot).
  cbn [PyStr.contains]. rewrite orb_true_iff.
  assert (PyStr.startswith k (String " " b) = true -> PyStr.contains k b = true)
    as Hstart.
  { destruct k as [|y k]; [intros _; apply contains_empty |].
    simpl in *. intros [Hy _]%andb_true_iff. apply bool_decide_eq_true in Hy.
    subst y. by rewrite bool_decide_eq_true_2 in Hsp. }
  split; [intros [? | [? | ?]]; auto | intros [? | ?]; auto].
Qed.

Lemma lower_separator a b :
  PyStr.lower (a +:+ ". " +:+ b) = PyStr.lower a +:+ ". " +:+ PyStr.lower b.
Proof.
  rewrite (lower_app_clean (". " +:+ b) eq_refl a).
  by change (". " +:+ b) with (String "." (String " " b)).
Qed.

Lemma KEYWORD_CATEGORIES_separable :
  Forall (fun entry => Forall separable (snd entry)) KEYWORD_CATEGORIES.
Proof. repeat (constructor; try done). Qed.

Lemma BANGALORE_LOCATIONS_separable : Forall separable BANGALORE_LOCATIONS.
Proof. repeat (constructor; try done). Qed.

(** X4: the separator ". " that the normaliser puts between a title and a
    body keeps the two apart: no trigger phrase and no place name has a full
    stop or a leading space, so the tags of the joined text are those of the
    title together with those of the body. *)
Theorem separator_keeps_fields_apart (title body : string) :
  locations (analyze_content (Some (title +:+ ". " +:+ body))) =
  locations (analyze_content (Some title)) ∪
  locations (analyze_content (Some body)) /\
  (forall c,
      c <> "general" ->
      c ∈ categories (analyze_content (Some (title +:+ ". " +:+ body))) <->
      c ∈ categories (analyze_content (Some title)) \/
      c ∈ categories (analyze_content (Some body))).
Proof.
  split.
  - rewrite !analyze_locations_found, lower_separator.
    apply set_eq. intros l.
    rewrite elem_of_union, !elem_of_locations_found. split.
    + intros (loc & Hin & Hc & ->).
      pose proof BANGALORE_LOCATIONS_separable as Hsep.
      rewrite Forall_forall in Hsep.
      apply (contains_separator _ _ _ (Hsep _ Hin)) in Hc as [Hc | Hc];
        [left | right]; by exists loc.
    + pose proof BANGALORE_LOCATIONS_separable as Hsep.
      rewrite Forall_forall in Hsep.
      intros [(loc & Hin & Hc & ->) | (loc & Hin & Hc & ->)]; exists loc;
        (split; [done |]); (split; [| done]);
        apply (contains_separator _ _ _ (Hsep _ Hin)); auto.
  - intros c Hc. rewrite !analyze_categories_found by done.
    rewrite lower_separator, !elem_of_categories_found.
    pose proof KEYWORD_CATEGORIES_separable as Hsep.
    rewrite Forall_forall in Hsep.
    assert (forall kws k, (c, kws) ∈ KEYWORD_CATEGORIES -> k ∈ kws -> separable k)
      as Hk.
    { intros kws k Hin Hkin. specialize (Hsep _ Hin). simpl in Hsep.
      rewrite Forall_forall in Hsep. by apply Hsep. }
    split.
    + intros (kws & k & Hin & Hkin & Hcont).
      apply (contains_separator _ _ _ (Hk _ _ Hin Hkin)) in Hcont as [? | ?];
        [left | right]; by exists kws, k.
    + intros [(kws & k & Hin & Hkin & Hcont) | (kws & k & Hin & Hkin & Hcont)];
        exists kws, k; (split; [done |]); (split; [done |]);
        apply (contains_separator _ _ _ (Hk _ _ Hin Hkin)); auto.
Qed.

(** ** Event normaliser *)

Section FetchFacts.

Variable parse : string -> exc (list Entry.t).
Variable mktime : struct_time -> exc Z.
Variable utcnow : nat -> Z.
Variable representable : Z -> bool.

Lemma rss_event_convertible source entry tick :
  convertible mktime entry = true ->
  exists event,
    rss_event mktime utcnow source entry tick = Ok event /\
    link_original event = Entry.link entry.
Proof.
  unfold convertible, rss_event.
  destruct (Entry.published_parsed entry) as [st |];
    [destruct (mktime st); [| done] |]; intros _; by eexists.
Qed.

Lemma rss_event_inconvertible source entry tick :
  convertible mktime entry = false ->
  exists msg, rss_event mktime utcnow source entry tick = Raise msg.
Proof.
  unfold convertible, rss_event.
  destruct (Entry.published_parsed entry) as [st |]; [| done].
  destruct (mktime st); [done |]. intros _. by eexists.
Qed.

(** X5: a feed that cannot be fetched is skipped. The loop over the feeds
    gives the events, and reads the clock, exactly as if that feed were not
    in the table. *)
Theorem unreachable_feed_is_skipped (pre post : list (string * string))
    (source url msg : string) (tick : nat) (all_events : list Event) :
  parse url = Raise msg ->
  rss_feeds parse mktime utcnow (pre ++ (source, url) :: post) tick all_events =
  rss_feeds parse mktime utcnow (pre ++ post) tick all_events.
Proof.
  intros Hurl. revert tick all_events.
  induction pre as [|[s u] pre IH]; intros tick all_events; simpl.
  - by rewrite Hurl.
  - destruct (parse u) as [entries |]; [| apply IH].
    destruct (rss_entries mktime utcnow s entries tick all_events). apply IH.
Qed.

(** X6: an entry whose published time cannot be converted ends its feed.
    The entries before it give their events; the entries after it are
    never looked at, whatever they hold. *)
Theorem conversion_error_ends_the_feed (source : string)
    (pre post : list Entry.t) (bad : Entry.t) (tick : nat)
    (all_events : list Event) :
  convertible mktime bad = false ->
  fst (rss_entries mktime utcnow source (pre ++ bad :: post) tick all_events) =
  fst (rss_entries mktime utcnow source pre tick all_events).
Proof.
  intros Hbad. revert tick all_events.
  induction pre as [|entry pre IH]; intros tick all_events; simpl.
  - by destruct (rss_event_inconvertible source bad tick Hbad) as [m ->].
  - destruct (rss_event mktime utcnow source entry tick); [apply IH | done].
Qed.

Lemma rss_entries_links source entries : forall tick all_events,
  map link_original
    (fst (rss_entries mktime utcnow source entries tick all_events)) =
  map link_original all_events ++ entry_links mktime entries.
Proof.
  unfold entry_links.
  induction entries as [|entry rest IH]; intros tick all_events; simpl.
  - by rewrite app_nil_r.
  - destruct (convertible mktime entry) eqn:Hconv.
    + destruct (rss_event_convertible source entry tick Hconv)
        as (event & -> & Hlink).
      cbn beta iota. rewrite IH, Hlink. simpl.
      destruct (PyStr.truthy (Entry.link entry)); [| done].
      by rewrite map_app, <- app_assoc; simpl; rewrite Hlink.
    + destruct (rss_event_inconvertible source entry tick Hconv) as [m ->].
      simpl. by rewrite app_nil_r.
Qed.

Lemma rss_feeds_links feeds : forall tick all_events,
  map link_original (fst (rss_feeds parse mktime utcnow feeds tick all_events)) =
  map link_original all_events ++ feed_links parse mktime feeds.
Proof.
  unfold feed_links.
  induction feeds as [|[source url] rest IH]; intros tick all_events; simpl.
  - by rewrite app_nil_r.
  - destruct (parse url) as [entries | msg]; [| apply IH].
    pose proof (rss_entries_links source entries tick all_events) as Hentries.
    destruct (rss_entries mktime utcnow source entries tick all_events)
      as [all_events' tick'].
    simpl in Hentries. by rewrite IH, Hentries, <- app_assoc.
Qed.

Lemma reddit_posts_imap sub posts : forall tick all_events,
  reddit_posts utcnow representable sub posts tick all_events =
  all_events ++
  imap (fun i s => reddit_event utcnow sub s (tick + i)) (yielded representable posts).
Proof.
  induction posts as [|[submission | msg] rest IH]; intros tick all_events;
    simpl; [by rewrite app_nil_r | | by rewrite app_nil_r].
  destruct (representable (Submission.created_utc submission));
    [| by rewrite app_nil_r].
  rewrite IH, <- app_assoc. simpl. rewrite Nat.add_0_r. do 2 f_equal.
  apply imap_ext. intros i s _. simpl. f_equal. lia.
Qed.

End FetchFacts.

(** X7: which feed events are produced does not depend on the clock. The
    links of the events [fetch_rss_data] returns are, feed after feed and
    entry after entry, the non-empty links of the entries each reachable
    feed holds before its first conversion error. *)
Theorem feed_links_of_fetch (parse : string -> exc (list Entry.t))
    (mktime : struct_time -> exc Z) (utcnow : nat -> Z) :
  map link_original (fetch_rss_data parse mktime utcnow) =
  feed_links parse mktime RSS_FEEDS.
Proof. unfold fetch_rss_data. by rewrite rss_feeds_links. Qed.

Lemma reddit_posts_stops utcnow representable sub pre :
  forall stop post tick all_events,
    match stop with
    | Ok s => representable (Submission.created_utc s) = false
    | Raise _ => True
    end ->
    reddit_posts utcnow representable sub (pre ++ stop :: post) tick all_events =
    reddit_posts utcnow representable sub pre tick all_events.
Proof.
  induction pre as [|[s | m] pre IH]; intros stop post tick all_events Hstop;
    simpl.
  - destruct stop as [s | m]; [by rewrite Hstop | done].
  - destruct (representable (Submission.created_utc s)); [by apply IH | done].
  - done.
Qed.

(** X8: the forum events are the posts the listing yields before its first
    error and before the first post whose instant [datetime.fromtimestamp]
    does not accept, one event per post and in the same order, the [i]-th
    stamped with the [i]-th reading of the clock. Such a post ends the
    loop as an error of the listing does: the posts after it are never
    looked at. Without a client there is no event. *)
Theorem forum_events_follow_listing (utcnow : nat -> Z)
    (representable : Z -> bool) (client : RedditClient) :
  let sub := subreddit client SUBREDDIT_NAME in
  fetch_reddit_data utcnow representable (Some client) =
  imap (fun i s => reddit_event utcnow sub s i)
    (yielded representable (new sub 50)) /\
  length (fetch_reddit_data utcnow representable (Some client)) <=
  length (new sub 50) /\
  fetch_reddit_data utcnow representable None = [] /\
  (forall pre s post tick all_events,
      representable (Submission.created_utc s) = false ->
      reddit_posts utcnow representable sub (pre ++ Ok s :: post) tick all_events =
      reddit_posts utcnow representable sub pre tick all_events) /\
  (forall pre msg post tick all_events,
      reddit_posts utcnow representable sub (pre ++ Raise msg :: post)
        tick all_events =
      reddit_posts utcnow representable sub pre tick all_events).
Proof.
  simpl. rewrite reddit_posts_imap. simpl. repeat split.
  - rewrite length_imap.
    induction (new (subreddit client SUBREDDIT_NAME) 50) as [|[s | m] rest IH];
      simpl; [lia | | lia].
    destruct (representable (Submission.created_utc s)); simpl; lia.
  - intros pre s post tick all_events Hs.
    by apply (reddit_posts_stops _ _ _ pre (Ok s)).
  - intros pre msg post tick all_events.
    by apply (reddit_posts_stops _ _ _ pre (Raise msg)).
Qed.

(** A post dated far beyond the year 9999 ends the listing: of three posts
    only the one before it gives an event. *)
Example forum_unrepresentable_instant :
  year_range (Submission.created_utc far_post) = false /\
  map event_id (fetch_reddit_data (fun _ => 0%Z) year_range (Some far_client)) =
  ["reddit_1abcde"].
Proof. split; reflexivity. Qed.

Lemma append_inj_l prefix (a b : string) :
  prefix +:+ a = prefix +:+ b -> a = b.
Proof.
  induction prefix as [|x p IH]; [done |].
  rewrite !append_cons. intros [= H]. by apply IH.
Qed.

(** X9: forum events are told apart by permalink. Two of them carry the
    same [link_original], the key of the store, exactly when their posts
    have the same permalink; and their [event_id]s agree exactly when the
    posts' ids do. *)
Theorem forum_key_is_permalink (utcnow utcnow' : nat -> Z)
    (sub sub' : Subreddit) (s1 s2 : Submission.t) (t1 t2 : nat) :
  (link_original (reddit_event utcnow sub s1 t1) =
   link_original (reddit_event utcnow' sub' s2 t2) <->
   Submission.permalink s1 = Submission.permalink s2) /\
  (event_id (reddit_event utcnow sub s1 t1) =
   event_id (reddit_event utcnow' sub' s2 t2) <->
   Submission.id s1 = Submission.id s2).
Proof.
  simpl. split; (split; [| by intros ->]).
  - intros [= H]. by apply append_inj_l in H.
  - by intros H%append_inj_l.
Qed.

(** *** The two versions of the normaliser *)

Section Versions.

Variable parse : string -> exc (list Entry.t).
Variable mktime : struct_time -> exc Z.
Variable utcnow : nat -> Z.
Variable representable : Z -> bool.

Lemma rss_event_versions source entry tick :
  match rss_event mktime utcnow source entry tick,
        V1.rss_event mktime utcnow source entry tick with
  | Ok e, Ok e1 => common e = common_v1 e1
  | Raise _, Raise _ => True
  | _, _ => False
  end.
Proof.
  unfold rss_event, V1.rss_event.
  by destruct (match Entry.published_parsed entry with
               | Some st => mktime st
               | None => Ok (utcnow tick)
               end).
Qed.

Lemma rss_entries_versions source entries : forall tick acc acc1,
  map common acc = map common_v1 acc1 ->
  map common (fst (rss_entries mktime utcnow source entries tick acc)) =
  map common_v1 (fst (V1.rss_entries mktime utcnow source entries tick acc1)) /\
  snd (rss_entries mktime utcnow source entries tick acc) =
  snd (V1.rss_entries mktime utcnow source entries tick acc1).
Proof.
  induction entries as [|entry rest IH]; intros tick acc acc1 Hacc; simpl;
    [done |].
  pose proof (rss_event_versions source entry tick) as Hev.
  destruct (rss_event mktime utcnow source entry tick) as [e |],
    (V1.rss_event mktime utcnow source entry tick) as [e1 |]; try done.
  apply IH.
  assert (link_original e = V1.link_original e1) as <- by (by injection Hev).
  destruct (PyStr.truthy (link_original e)); [| done].
  by rewrite !map_app, Hacc; simpl; rewrite Hev.
Qed.

Lemma rss_feeds_versions feeds : forall tick acc acc1,
  map common acc = map common_v1 acc1 ->
  map common (fst (rss_feeds parse mktime utcnow feeds tick acc)) =
  map common_v1 (fst (V1.rss_feeds parse mktime utcnow feeds tick acc1)).
Proof.
  induction feeds as [|[source url] rest IH]; intros tick acc acc1 Hacc; simpl;
    [done |].
  destruct (parse url) as [entries |]; [| by apply IH].
  destruct (rss_entries_versions source entries tick acc acc1 Hacc)
    as [Hevents Hticks].
  destruct (rss_entries mktime utcnow source entries tick acc),
    (V1.rss_entries mktime utcnow source entries tick acc1).
  simpl in *. subst. by apply IH.
Qed.

Lemma reddit_posts_versions sub posts : forall tick acc acc1,
  map (fun e => (common e, media_urls e)) acc =
  map (fun e => (common_v1 e, Some (V1.media_urls e))) acc1 ->
  map (fun e => (common e, media_urls e))
    (reddit_posts utcnow representable sub posts tick acc) =
  map (fun e => (common_v1 e, Some (V1.media_urls e)))
    (V1.reddit_posts utcnow representable sub posts tick acc1).
Proof.
  induction posts as [|[submission |] rest IH]; intros tick acc acc1 Hacc;
    simpl; [done | | done].
  destruct (representable (Submission.created_utc submission)); [| done].
  apply IH. by rewrite !map_app, Hacc.
Qed.

(** X10: the classifier is all the later version adds. On the same feeds,
    listing and clock, the two versions return the same events in the same
    order as far as the fields they share go (ids, source, texts, link and
    instants), and the same [media_urls] on the forum path. *)
Theorem versions_agree (reddit_client : option RedditClient) :
  map common (fetch_rss_data parse mktime utcnow) =
  map common_v1 (V1.fetch_rss_data parse mktime utcnow) /\
  map (fun e => (common e, media_urls e))
    (fetch_reddit_data utcnow representable reddit_client) =
  map (fun e => (common_v1 e, Some (V1.media_urls e)))
    (V1.fetch_reddit_data utcnow representable reddit_client).
Proof.
  split.
  - by apply rss_feeds_versions.
  - destruct reddit_client as [client |]; [| done].
    by apply reddit_posts_versions.
Qed.

End Versions.

(** ** Set-up of the forum client *)

(** X11: a client is returned only with full credentials. The three
    variables must be set and non-empty, the client must be built from
    exactly those values with a timeout of 15, and the test call must
    succeed; in every other case the result is [None]. *)
Theorem client_needs_credentials (getenv : string -> option string)
    (praw_Reddit : string -> string -> string -> nat -> exc RedditClient)
    (user_me : RedditClient -> exc unit) (reddit : RedditClient) :
  setup_reddit_client getenv praw_Reddit user_me = Some reddit <->
  exists client_id client_secret user_agent,
    getenv "REDDIT_CLIENT_ID" = Some client_id /\ client_id <> "" /\
    getenv "REDDIT_CLIENT_SECRET" = Some client_secret /\ client_secret <> "" /\
    getenv "REDDIT_USER_AGENT" = Some user_agent /\ user_agent <> "" /\
    praw_Reddit client_id client_secret user_agent 15 = Ok reddit /\
    user_me reddit = Ok tt.
Proof.
  unfold setup_reddit_client. split.
  - destruct (getenv "REDDIT_CLIENT_ID") as [[|a i] |]; simpl; try done.
    destruct (getenv "REDDIT_CLIENT_SECRET") as [[|b s] |]; simpl; try done.
    destruct (getenv "REDDIT_USER_AGENT") as [[|c u] |]; simpl; try done.
    destruct (praw_Reddit _ _ _ 15) as [r |] eqn:Hr; [| done].
    destruct (user_me r) as [[] |] eqn:Hme; [| done].
    intros [= ->]. by eexists _, _, _.
  - intros (i & s & u & -> & Hi & -> & Hs & -> & Hu & Hr & Hme).
    destruct i; [done |]. destruct s; [done |]. destruct u; [done |].
    simpl. by rewrite Hr, Hme.
Qed.

(** A blank secret is a missing secret: the client is not even built. *)
Example blank_secret_gives_no_client praw_Reddit user_me :
  setup_reddit_client blank_secret_env praw_Reddit user_me = None /\
  setup_reddit_client full_env (fun _ _ _ _ => Ok sample_client)
    (fun _ => Ok tt) = Some sample_client.
Proof. done. Qed.

(** ** Ingestion store *)

Section StoreMore.

Implicit Types (c : Collection) (e : Event).

(** The counter given to the loop is only added to. *)
Lemma store_loop_acc events : forall c k,
  store_loop c events k =
  (k + fst (store_loop c events 0), snd (store_loop c events 0)).
Proof.
  induction events as [|a rest IH]; intros c k.
  - simpl. by rewrite Nat.add_0_r.
  - rewrite !store_loop_cons.
    set (c1 := snd (update_one c (link_original a) a)).
    destruct (fst (update_one c (link_original a) a)) as [res | msg].
    + destruct (upserted_id res).
      * rewrite (IH c1 (S k)), (IH c1 1). simpl. f_equal. lia.
      * apply IH.
    + apply IH.
Qed.

Lemma store_loop_app a : forall b c k,
  store_loop c (a ++ b) k =
  store_loop (snd (store_loop c a k)) b (fst (store_loop c a k)).
Proof.
  induction a as [|x a IH]; intros b c k; [done |].
  change ((x :: a) ++ b) with (x :: (a ++ b)).
  rewrite !store_loop_cons. apply IH.
Qed.

Lemma store_loop_count_le events : forall c k,
  fst (store_loop c events k) <= k + length events.
Proof.
  induction events as [|a rest IH]; intros c k; [simpl; lia |].
  rewrite store_loop_cons. simpl length.
  set (c1 := snd (update_one c (link_original a) a)).
  destruct (fst (update_one c (link_original a) a)) as [res | msg].
  - destruct (upserted_id res).
    + specialize (IH c1 (S k)). lia.
    + specialize (IH c1 k). lia.
  - specialize (IH c1 k). lia.
Qed.

(** The documents a batch adds, whatever fails: they come under links of
    the batch that were not stored, no two under the same link. *)
Lemma store_loop_added events : forall c k,
  exists added,
    documents (snd (store_loop c events k)) = documents c ++ added /\
    fst (store_loop c events k) = k + length added /\
    NoDup (map (fun d => link_original (fields d)) added) /\
    forall l, l ∈ map (fun d => link_original (fields d)) added ->
              (l ∉ stored_links c) /\ l ∈ map link_original events.
Proof.
  induction events as [|e rest IH]; intros c k.
  - exists []. simpl. rewrite app_nil_r, Nat.add_0_r.
    split; [done |]. split; [done |]. split; [apply NoDup_nil_2 |].
    intros l Hl. by apply elem_of_nil in Hl.
  - rewrite store_loop_cons.
    destruct (update_one_step c e) as [(r & Hstep & Hr) | [Hl Hstep]];
      rewrite Hstep; cbn [fst snd].
    + assert (match r with
              | Ok result =>
                  match upserted_id result with Some _ => S k | None => k end
              | Raise _ => k
              end = k) as ->.
      { destruct r as [res |]; [| done]. by rewrite (Hr res eq_refl). }
      destruct (IH (set_failures c (tail (failures c))) k)
        as (added & Hdocs & Hcount & Hnodup & Hlinks).
      exists added. split; [done |]. split; [done |]. split; [done |].
      intros l Hl. apply Hlinks in Hl as [Hn Hin].
      split; [done | by right].
    + cbn [upserted_id].
      set (c' := {| documents := _; next_id := _; failures := _ |}).
      destruct (IH c' (S k)) as (added & Hdocs & Hcount & Hnodup & Hlinks).
      assert (stored_links c' = stored_links c ++ [link_original e]) as Hc'.
      { unfold stored_links, c'. simpl. by rewrite map_app. }
      exists ({| _id := next_id c; fields := e |} :: added).
      rewrite Hdocs, Hcount. unfold c'. simpl. rewrite <- app_assoc. simpl.
      split; [done |]. split; [lia |]. split.
      * apply NoDup_cons. split; [| done]. intros Hin.
        apply Hlinks in Hin as [Hin _]. apply Hin. rewrite Hc'.
        apply elem_of_app. right. by left.
      * intros l [-> | Hin]%elem_of_cons; [split; [done | by left] |].
        apply Hlinks in Hin as [Hn Hin]. split; [| by right].
        intros Hs. apply Hn. rewrite Hc'. apply elem_of_app. by left.
Qed.

Lemma first_new_links_set events : forall seen,
  list_to_set (map link_original (first_new seen events)) =
  (distinct_links events ∖ list_to_set seen : gset (option string)).
Proof.
  unfold distinct_links.
  induction events as [|a rest IH]; intros seen; simpl.
  - by rewrite difference_disjoint_L by apply disjoint_empty_l.
  - case_bool_decide as Ha; simpl; rewrite IH; apply set_eq; intros x.
    + rewrite !elem_of_difference, elem_of_union, elem_of_singleton,
        !elem_of_list_to_set.
      split; [tauto |]. intros [[-> | Hx] Hs]; [done | tauto].
    + rewrite list_to_set_app_L. simpl. rewrite union_empty_r_L.
      rewrite !elem_of_union, !elem_of_difference, !elem_of_union,
        elem_of_singleton, !elem_of_list_to_set.
      destruct (decide (x = link_original a)) as [-> | Hx]; tauto.
Qed.

Lemma no_failure_set c fs :
  Forall (fun b => b = false) fs -> no_failure (set_failures c fs).
Proof. done. Qed.

Lemma store_loop_keeps_no_failure events c k :
  no_failure c -> no_failure (snd (store_loop c events k)).
Proof.
  intros Hc. rewrite store_loop_no_failure by done. unfold no_failure in *.
  simpl. rewrite Forall_forall in *. intros b Hb. apply Hc.
  by apply (subseteq_drop (length events)).
Qed.

Lemma store_loop_links_grow events c k l :
  l ∈ stored_links c -> l ∈ stored_links (snd (store_loop c events k)).
Proof.
  intros Hl. destruct (store_loop_added events c k) as (added & Hdocs & _).
  unfold stored_links. rewrite Hdocs, map_app. apply elem_of_app. by left.
Qed.

Lemma store_loop_stores_all events c k e :
  no_failure c -> e ∈ events ->
  link_original e ∈ stored_links (snd (store_loop c events k)).
Proof.
  intros Hc He. rewrite store_loop_no_failure by done.
  unfold stored_links at 1. cbn [snd documents].
  rewrite map_app, links_number_from. by apply first_new_covers.
Qed.

End StoreMore.

(** X12: a batch may be split. Storing [a ++ b] in one call gives the same
    store as storing [a] and then [b], and its count is the sum of the two
    counts, whatever the schedule of storage errors. *)
Theorem batch_may_be_split (c : Collection) (a b : list Event) :
  let first := store_events_in_db c a in
  let second := store_events_in_db (snd first) b in
  store_events_in_db c (a ++ b) = (fst first + fst second, snd second).
Proof.
  simpl. rewrite !store_events_in_db_loop, store_loop_app.
  by rewrite (store_loop_acc b).
Qed.

(** X13: with no storage error, the count is the number of distinct links
    of the batch that were not stored, and afterwards the stored links are
    the old ones together with those of the batch; so the order of the
    events in the batch changes neither the count nor which links are
    stored. *)
Theorem count_is_new_links (c : Collection) (events : list Event) :
  no_failure c ->
  fst (store_events_in_db c events) =
    size (distinct_links events ∖ list_to_set (stored_links c)) /\
  (list_to_set (stored_links (snd (store_events_in_db c events)))
     : gset (option string)) =
    list_to_set (stored_links c) ∪ distinct_links events /\
  (forall events',
      events ≡ₚ events' ->
      fst (store_events_in_db c events') = fst (store_events_in_db c events) /\
      (list_to_set (stored_links (snd (store_events_in_db c events')))
         : gset (option string)) =
      list_to_set (stored_links (snd (store_events_in_db c events)))).
Proof.
  intros Hc.
  assert (forall evs,
             fst (store_events_in_db c evs) =
               size (distinct_links evs ∖ list_to_set (stored_links c)) /\
             (list_to_set (stored_links (snd (store_events_in_db c evs)))
                : gset (option string)) =
               list_to_set (stored_links c) ∪ distinct_links evs) as Hone.
  { intros evs. rewrite store_events_in_db_loop, store_loop_no_failure by done.
    cbn [fst snd]. split; [by rewrite first_new_length |].
    unfold stored_links at 1. cbn [documents].
    rewrite map_app, links_number_from, list_to_set_app_L, first_new_links_set.
    apply set_eq. intros x.
    rewrite !elem_of_union, elem_of_difference.
    destruct (decide (x ∈ (list_to_set (stored_links c) : gset (option string))));
      tauto. }
  destruct (Hone events) as [Hcount Hlinks].
  split; [done |]. split; [done |].
  intros events' Hperm. destruct (Hone events') as [-> ->].
  assert (distinct_links events' = distinct_links events) as ->.
  { unfold distinct_links. by rewrite Hperm. }
  by rewrite Hcount, Hlinks.
Qed.

Lemma count_is_new_links_witness :
  fst (store_events_in_db empty_collection repeated_batch) =
    size (distinct_links repeated_batch
            ∖ list_to_set (stored_links empty_collection)) /\
  (list_to_set
     (stored_links (snd (store_events_in_db empty_collection repeated_batch)))
     : gset (option string)) =
    list_to_set (stored_links empty_collection) ∪ distinct_links repeated_batch /\
  (forall events',
      repeated_batch ≡ₚ events' ->
      fst (store_events_in_db empty_collection events') =
        fst (store_events_in_db empty_collection repeated_batch) /\
      (list_to_set
         (stored_links (snd (store_events_in_db empty_collection events')))
         : gset (option string)) =
      list_to_set
        (stored_links (snd (store_events_in_db empty_collection repeated_batch)))).
Proof.
  apply (count_is_new_links empty_collection repeated_batch). apply Forall_nil_2.
Defined.

(** X14: a failed batch is mended by running it again. After a run under
    any schedule of storage errors, a second run of the same batch without
    errors leaves every link of the batch stored, and the two counts add up
    to the number of distinct links of the batch that were not stored at
    the start: nothing is lost and nothing is counted twice. *)
Theorem rerun_completes_the_batch (c : Collection) (events : list Event)
    (fs : list bool) :
  Forall (fun b => b = false) fs ->
  let first := store_events_in_db c events in
  let second := store_events_in_db (set_failures (snd first) fs) events in
  fst first + fst second =
    size (distinct_links events ∖ list_to_set (stored_links c)) /\
  (forall e, e ∈ events -> link_original e ∈ stored_links (snd second)).
Proof.
  intros Hfs first second. subst first second.
  rewrite !store_events_in_db_loop.
  destruct (store_loop_added events c 0)
    as (added & Hdocs & Hcount & Hnodup & Hlinks).
  set (c1 := snd (store_loop c events 0)) in *.
  pose proof (no_failure_set c1 fs Hfs) as Hc1.
  split; [| intros e He; by apply store_loop_stores_all].
  rewrite (store_loop_no_failure events _ 0 Hc1). cbn [fst].
  rewrite first_new_length, Hcount, stored_links_set_failures.
  unfold stored_links at 1. rewrite Hdocs, map_app, list_to_set_app_L.
  fold (stored_links c).
  set (S0 := list_to_set (stored_links c) : gset (option string)).
  set (A := list_to_set (map (fun d => link_original (fields d)) added)
            : gset (option string)).
  set (D := distinct_links events).
  assert (length added = size A) as ->.
  { unfold A. by rewrite size_list_to_set, length_map. }
  assert (A ⊆ D ∖ S0) as Hsub.
  { intros l Hl. apply elem_of_list_to_set in Hl. apply Hlinks in Hl as [Hn Hin].
    apply elem_of_difference. unfold D, S0, distinct_links.
    by rewrite !elem_of_list_to_set. }
  rewrite <- difference_difference_l_L, (size_difference _ _ Hsub).
  apply subseteq_size in Hsub. lia.
Qed.

Lemma rerun_completes_the_batch_witness :
  let c := set_failures empty_collection [true; false; true] in
  let events := [article_toi; article_mirror; article_hindu] in
  let first := store_events_in_db c events in
  let second := store_events_in_db (set_failures (snd first) []) events in
  fst first + fst second =
    size (distinct_links events ∖ list_to_set (stored_links c)) /\
  (forall e, e ∈ events -> link_original e ∈ stored_links (snd second)).
Proof.
  apply (rerun_completes_the_batch
           (set_failures empty_collection [true; false; true])
           [article_toi; article_mirror; article_hindu] []).
  apply Forall_nil_2.
Defined.

Lemma unreachable_feed_is_skipped_witness :
  rss_feeds sample_parse failing_mktime (fun _ => 0%Z)
    ([("TimesOfIndia",
       "https://timesofindia.indiatimes.com/rssfeeds/-2128833038.cms")] ++
     ("TheHindu",
      "https://www.thehindu.com/news/cities/bangalore/feeder/default.xml") :: [])
    0 [] =
  rss_feeds sample_parse failing_mktime (fun _ => 0%Z)
    ([("TimesOfIndia",
       "https://timesofindia.indiatimes.com/rssfeeds/-2128833038.cms")] ++ [])
    0 [].
Proof.
  apply (unreachable_feed_is_skipped sample_parse failing_mktime (fun _ => 0%Z)
           _ [] "TheHindu" _ "feed not reachable").
  reflexivity.
Defined.

Lemma conversion_error_ends_the_feed_witness :
  fst (rss_entries failing_mktime (fun _ => 0%Z) "TheHindu"
         ([untagged_entry] ++ dated_entry :: [untagged_entry]) 0 []) =
  fst (rss_entries failing_mktime (fun _ => 0%Z) "TheHindu" [untagged_entry] 0 []).
Proof.
  apply (conversion_error_ends_the_feed failing_mktime (fun _ => 0%Z) "TheHindu"
           [untagged_entry] [untagged_entry] dated_entry 0 []).
  reflexivity.
Defined.

(** ** One scraping cycle *)

Lemma reddit_posts_links utcnow representable sub posts :
  forall tick all_events,
    map link_original
      (reddit_posts utcnow representable sub posts tick all_events) =
    map link_original all_events ++
    map reddit_link (yielded representable posts).
Proof.
  induction posts as [|[submission | msg] rest IH]; intros tick all_events;
    simpl; [by rewrite app_nil_r | | by rewrite app_nil_r].
  destruct (representable (Submission.created_utc submission));
    [| by rewrite app_nil_r].
  by rewrite IH, map_app, <- app_assoc.
Qed.

Lemma same_links_stored (events events' : list Event) c :
  map link_original events' = map link_original events ->
  (forall e, e ∈ events -> link_original e ∈ stored_links c) ->
  forall e, e ∈ events' -> link_original e ∈ stored_links c.
Proof.
  intros Hmap Hall e He.
  assert (link_original e ∈ map link_original events) as Hin.
  { rewrite <- Hmap. apply list_elem_of_fmap. by exists e. }
  apply list_elem_of_fmap in Hin as (e0 & -> & He0). by apply Hall.
Qed.

(** X15: a scraping cycle is one batch. The two counts it reports add up
    to the count of a single call on the feed events followed by the forum
    events, which leaves the same store; the store grows by exactly the two
    counts, and neither count exceeds the number of events fetched. *)
Theorem cycle_is_one_batch (parse : string -> exc (list Entry.t))
    (mktime : struct_time -> exc Z) (utcnow : nat -> Z)
    (representable : Z -> bool)
    (collection : Collection) (client : RedditClient)
    (rss_added reddit_added : nat) (collection' : Collection) :
  main parse mktime utcnow representable (Some collection) (Some client) =
    Some (rss_added, reddit_added, collection') ->
  let rss_events := fetch_rss_data parse mktime utcnow in
  let ticks := snd (rss_feeds parse mktime utcnow RSS_FEEDS 0 []) in
  let reddit_posts :=
    fetch_reddit_data (fun n => utcnow (ticks + n)) representable (Some client) in
  store_events_in_db collection (rss_events ++ reddit_posts) =
    (rss_added + reddit_added, collection') /\
  length (documents collection') =
    length (documents collection) + rss_added + reddit_added /\
  rss_added <= length rss_events /\
  reddit_added <= length reddit_posts.
Proof.
  unfold main, fetch_rss_data.
  destruct (rss_feeds parse mktime utcnow RSS_FEEDS 0 []) as [rss ticks].
  cbn beta iota zeta. cbn [fst snd].
  set (reddit := fetch_reddit_data _ _ (Some client)).
  rewrite !store_events_in_db_loop.
  destruct (store_loop collection rss 0) as [n1 c1] eqn:H1.
  cbn beta iota zeta. rewrite store_events_in_db_loop.
  destruct (store_loop c1 reddit 0) as [n2 c2] eqn:H2.
  intros [= <- <- <-].
  assert (n1 = fst (store_loop collection rss 0)) as Hn1 by (by rewrite H1).
  assert (c1 = snd (store_loop collection rss 0)) as Hc1 by (by rewrite H1).
  assert (n2 = fst (store_loop c1 reddit 0)) as Hn2 by (by rewrite H2).
  assert (c2 = snd (store_loop c1 reddit 0)) as Hc2 by (by rewrite H2).
  split; [| split; [| split]].
  - rewrite store_loop_app, H1. cbn [fst snd].
    by rewrite (store_loop_acc reddit), H2.
  - destruct (store_loop_added rss collection 0) as (a1 & Hd1 & Hk1 & _).
    destruct (store_loop_added reddit c1 0) as (a2 & Hd2 & Hk2 & _).
    rewrite Hc2, Hd2, Hc1, Hd1, !length_app, Hn1, Hn2, Hk1, Hk2. lia.
  - rewrite Hn1. apply (store_loop_count_le rss collection 0).
  - rewrite Hn2. apply (store_loop_count_le reddit c1 0).
Qed.

Lemma cycle_is_one_batch_witness :
  store_events_in_db empty_collection
    (fetch_rss_data sample_parse failing_mktime (fun _ => 0%Z) ++
     fetch_reddit_data
       (fun n =>
          (fun _ => 0%Z)
            (snd (rss_feeds sample_parse failing_mktime (fun _ => 0%Z)
                    RSS_FEEDS 0 []) + n))
       year_range (Some sample_client)) =
  (1 + 3, snd (default (0, 0, empty_collection)
                 (main sample_parse failing_mktime (fun _ => 0%Z) year_range
                    (Some empty_collection) (Some sample_client)))).
Proof.
  apply (cycle_is_one_batch sample_parse failing_mktime (fun _ => 0%Z)
           year_range empty_collection sample_client 1 3).
  by vm_compute.
Defined.

(** X16: a scraping cycle can be repeated. After a cycle without storage
    error, a further cycle over the same feeds and listing, at any later
    reading of the clock and under any schedule of storage errors, reports
    0 and 0 and leaves every document as it is. *)
Theorem cycle_is_idempotent (parse : string -> exc (list Entry.t))
    (mktime : struct_time -> exc Z) (utcnow utcnow' : nat -> Z)
    (representable : Z -> bool)
    (collection : Collection) (client : RedditClient) (fs : list bool)
    (rss_added reddit_added : nat) (collection1 : Collection) :
  no_failure collection ->
  main parse mktime utcnow representable (Some collection) (Some client) =
    Some (rss_added, reddit_added, collection1) ->
  exists collection2,
    main parse mktime utcnow' representable
      (Some (set_failures collection1 fs)) (Some client) =
      Some (0, 0, collection2) /\
    documents collection2 = documents collection1.
Proof.
  intros Hc. unfold main.
  pose proof (rss_feeds_links parse mktime utcnow RSS_FEEDS 0 []) as Hl.
  pose proof (rss_feeds_links parse mktime utcnow' RSS_FEEDS 0 []) as Hl'.
  destruct (rss_feeds parse mktime utcnow RSS_FEEDS 0 []) as [rss ticks].
  destruct (rss_feeds parse mktime utcnow' RSS_FEEDS 0 []) as [rss' ticks'].
  cbn [fst] in Hl, Hl'. cbn beta iota zeta.
  set (reddit :=
         fetch_reddit_data (fun n => utcnow (ticks + n)) representable
           (Some client)).
  set (reddit' :=
         fetch_reddit_data (fun n => utcnow' (ticks' + n)) representable
           (Some client)).
  assert (map link_original reddit' = map link_original reddit) as Hr.
  { unfold reddit, reddit'. simpl. by rewrite !reddit_posts_links. }
  rewrite !store_events_in_db_loop.
  pose proof (store_loop_stores_all rss collection 0) as Hrss.
  pose proof (store_loop_keeps_no_failure rss collection 0 Hc) as Hc1.
  destruct (store_loop collection rss 0) as [n1 c1]. cbn [snd] in Hrss, Hc1.
  cbn beta iota zeta. rewrite store_events_in_db_loop.
  pose proof (store_loop_stores_all reddit c1 0) as Hreddit.
  pose proof (fun l => store_loop_links_grow reddit c1 0 l) as Hgrow.
  destruct (store_loop c1 reddit 0) as [n2 c2]. cbn [snd] in Hreddit, Hgrow.
  intros [= <- <- <-]. cbn beta iota zeta.
  rewrite (store_loop_all_stored rss').
  - cbn beta iota zeta.
    rewrite store_events_in_db_loop, (store_loop_all_stored reddit').
    + by eexists.
    + apply (same_links_stored reddit reddit'); [done |].
      intros e He. rewrite !stored_links_set_failures. by apply Hreddit.
  - apply (same_links_stored rss rss'); [by rewrite Hl, Hl' |].
    intros e He. rewrite stored_links_set_failures. by apply Hgrow, Hrss.
Qed.

Lemma cycle_is_idempotent_witness :
  exists collection2,
    main sample_parse failing_mktime (fun n => Z.of_nat n + 3600)%Z year_range
      (Some (set_failures
               (snd (default (0, 0, empty_collection)
                       (main sample_parse failing_mktime (fun _ => 0%Z)
                          year_range
                          (Some empty_collection) (Some sample_client))))
               [true; false]))
      (Some sample_client) = Some (0, 0, collection2) /\
    documents collection2 =
    documents (snd (default (0, 0, empty_collection)
                      (main sample_parse failing_mktime (fun _ => 0%Z)
                         year_range
                         (Some empty_collection) (Some sample_client)))).
Proof.
  apply (cycle_is_idempotent sample_parse failing_mktime (fun _ => 0%Z)
           (fun n => Z.of_nat n + 3600)%Z year_range empty_collection
           sample_client [true; false] 1 3).
  - apply Forall_nil_2.
  - by vm_compute.
Defined.
